(** * kettle: leader election on top of a distributed lock

    A shallow embedding of [kettle.go] and [v2/redis.go].

    - Go's [int32]/[int64]/[time.Duration] are [Z] with the wrap-around
      written out ([wrap64]).
    - A Go [error] value is [option goerror]: [None] is [nil].
    - A Go pointer or interface value that may be [nil] is an [option].
    - The process environment ([os.Getenv]) is a [gmap string string].
    - The two goroutines spawned by [Start] and the channels between them
      are a labelled transition system ([step]) over a state [Sys]; one
      label is one atomic action of one goroutine, of the Go runtime
      (a tick) or of the caller (a signal on [Quit], a receive on [Done]).
    - What the code asks of the outside world in a work cycle (what
      [lock.Lock()] returns, what the callback returns) is an input of
      the cycle. *)

From Stdlib Require Import Ascii String.
From stdpp Require Import base numbers list strings gmap.

Local Open Scope string_scope.
Local Open Scope list_scope.
Local Open Scope Z_scope.

(** ** Go values *)

(** [int64] arithmetic wraps around (two's complement). *)
Definition wrap64 (z : Z) : Z := (z + 2 ^ 63) `mod` 2 ^ 64 - 2 ^ 63.

Definition in_int64 (z : Z) : bool := (- 2 ^ 63 <=? z) && (z <? 2 ^ 63).

(** [time.Duration] is an [int64] count of nanoseconds. *)
Definition time_Second : Z := 1000000000.

(** [a * b] on [time.Duration]. *)
Definition Duration_mul (a b : Z) : Z := wrap64 (a * b).

(** Error values: [errors.Errorf(msg)] and the [*strconv.NumError] of
    [strconv.Atoi]. *)
Inductive goerror : Type :=
| Errorf (msg : string)
| NumError (func num reason : string).

(** A value of type [interface{}] (the callback's context). *)
Inductive iface : Type :=
| INil
| IInt (z : Z)
| IString (s : string).

(** A value of type [func(ctx interface{}) error]: functions are opaque
    references, what a call returns is an input of the work cycle. *)
Inductive gofunc : Type := FuncRef (id : nat).

(** A channel value ([chan error]): its identity and its capacity. *)
Record Chan : Type := MkChan { chan_id : nat; chan_cap : nat }.

(** ** The redis pool and the lock ([v2/redis.go], redsync) *)

Inductive DialOption : Type :=
| DialPassword (password : string)
| DialConnectTimeout (d : Z).

(** [redis.Pool], with the fields [NewRedisPool] sets; [Dial] closes over
    [addr] and [dialOpts]. *)
Record Pool : Type := MkPool {
  MaxIdle : Z;
  MaxActive : Z;
  Wait : bool;
  IdleTimeout : Z;
  Dial_addr : string;
  Dial_opts : list DialOption
}.

(** A value implementing [DistLocker]: the [*redsync.Mutex] that [New]
    builds ([rs.NewMutex(name, redsync.SetExpiry(d))] over [pools]), or a
    locker of the caller's. *)
Inductive DistLocker : Type :=
| RedsyncMutex (key : string) (expiry : Z) (pools : list (option Pool))
| UserLocker (id : nat).

(** [os.Getenv]: the empty string when the variable is not set. *)
Definition Getenv (env : gmap string string) (key : string) : string :=
  default "" (env !! key).

(** *** [strconv.Atoi] (Go's standard library), base 10, 64-bit [int]:
    an optional sign, then at least one decimal digit and nothing else;
    the value must fit [int64]. *)
Definition digit_val (c : ascii) : option Z :=
  let n := Z.of_N (N_of_ascii c) in
  if (48 <=? n) && (n <=? 57) then Some (n - 48) else None.

Fixpoint parse_digits (s : string) (acc : Z) : option Z :=
  match s with
  | EmptyString => Some acc
  | String c s' =>
      match digit_val c with
      | Some d => parse_digits s' (10 * acc + d)
      | None => None
      end
  end.

Definition Atoi (s : string) : Z * option goerror :=
  let syntax := (0, Some (NumError "Atoi" s "invalid syntax")) in
  let range := (0, Some (NumError "Atoi" s "value out of range")) in
  let '(neg, body) :=
    match s with
    | String "-"%char r => (true, r)
    | String "+"%char r => (false, r)
    | _ => (false, s)
    end in
  match body with
  | EmptyString => syntax
  | _ =>
      match parse_digits body 0 with
      | None => syntax
      | Some n =>
          let v := if neg then - n else n in
          if in_int64 v then (v, None) else range
      end
  end.

(** *** [NewRedisPool] *)
Definition NewRedisPool (env : gmap string string) : option Pool * option goerror :=
  let addr := Getenv env "REDIS_HOST" in
  if decide (addr = "") then
    (None, Some (Errorf "REDIS_HOST env variable must be set (e.g host:port, redis://password@host:port)"))
  else
    let dialOpts : list DialOption := [] in
    let password := Getenv env "REDIS_PASSWORD" in
    let dialOpts :=
      if decide (password <> "") then (dialOpts ++ [DialPassword password])%list
      else dialOpts in
    let tm := Getenv env "REDIS_TIMEOUT_SECONDS" in
    let mk (dialOpts : list DialOption) :=
      (Some {| MaxIdle := 3; MaxActive := 4; Wait := true;
               IdleTimeout := Duration_mul 240 time_Second;
               Dial_addr := addr; Dial_opts := dialOpts |}, None) in
    if decide (tm <> "") then
      match Atoi tm with
      | (_, Some err) => (None, Some err)
      | (tmsec, None) =>
          mk (dialOpts ++ [DialConnectTimeout (Duration_mul tmsec time_Second)])%list
      end
    else mk dialOpts.

(** ** The kettle *)

Record StartInput : Type := MkStartInput {
  Master : option gofunc;   (* function to call every time we are master *)
  MasterCtx : iface;        (* callback function parameter *)
  Quit : option Chan;       (* signal for us to terminate *)
  Done : option Chan        (* report that we are done *)
}.

Record Kettle : Type := MkKettle {
  name : string;
  verbose : bool;
  pool : option Pool;
  lock : option DistLocker;
  master : Z;                       (* 1 if we are master, otherwise, 0 *)
  hostname : string;
  startInput : option StartInput;
  masterQuit : option Chan;         (* signal master set to quit *)
  masterDone : option Chan;         (* master termination done *)
  tickTime : Z
}.

(** Field assignments [s.f = v]. *)
Definition set_name (v : string) (s : Kettle) : Kettle :=
  MkKettle v (verbose s) (pool s) (lock s) (master s) (hostname s)
           (startInput s) (masterQuit s) (masterDone s) (tickTime s).
Definition set_verbose (v : bool) (s : Kettle) : Kettle :=
  MkKettle (name s) v (pool s) (lock s) (master s) (hostname s)
           (startInput s) (masterQuit s) (masterDone s) (tickTime s).
Definition set_pool (v : option Pool) (s : Kettle) : Kettle :=
  MkKettle (name s) (verbose s) v (lock s) (master s) (hostname s)
           (startInput s) (masterQuit s) (masterDone s) (tickTime s).
Definition set_lock (v : option DistLocker) (s : Kettle) : Kettle :=
  MkKettle (name s) (verbose s) (pool s) v (master s) (hostname s)
           (startInput s) (masterQuit s) (masterDone s) (tickTime s).
Definition set_master (v : Z) (s : Kettle) : Kettle :=
  MkKettle (name s) (verbose s) (pool s) (lock s) v (hostname s)
           (startInput s) (masterQuit s) (masterDone s) (tickTime s).
Definition set_hostname (v : string) (s : Kettle) : Kettle :=
  MkKettle (name s) (verbose s) (pool s) (lock s) (master s) v
           (startInput s) (masterQuit s) (masterDone s) (tickTime s).
Definition set_startInput (v : option StartInput) (s : Kettle) : Kettle :=
  MkKettle (name s) (verbose s) (pool s) (lock s) (master s) (hostname s)
           v (masterQuit s) (masterDone s) (tickTime s).
Definition set_masterQuit (v : option Chan) (s : Kettle) : Kettle :=
  MkKettle (name s) (verbose s) (pool s) (lock s) (master s) (hostname s)
           (startInput s) v (masterDone s) (tickTime s).
Definition set_masterDone (v : option Chan) (s : Kettle) : Kettle :=
  MkKettle (name s) (verbose s) (pool s) (lock s) (master s) (hostname s)
           (startInput s) (masterQuit s) v (tickTime s).
Definition set_tickTime (v : Z) (s : Kettle) : Kettle :=
  MkKettle (name s) (verbose s) (pool s) (lock s) (master s) (hostname s)
           (startInput s) (masterQuit s) (masterDone s) v.

(** *** Options *)

Inductive KettleOption : Type :=
| withName (v : string)
| withVerbose (v : bool)
| withDistLocker (dl : option DistLocker)
| withTickTime (v : Z).

Definition Apply (w : KettleOption) (o : Kettle) : Kettle :=
  match w with
  | withName v => set_name v o
  | withVerbose v => set_verbose v o
  | withDistLocker dl => set_lock dl o
  | withTickTime v => set_tickTime v o
  end.

Definition WithName (v : string) : KettleOption := withName v.
Definition WithVerbose (v : bool) : KettleOption := withVerbose v.
Definition WithDistLocker (v : option DistLocker) : KettleOption := withDistLocker v.
Definition WithTickTime (v : Z) : KettleOption := withTickTime v.

(** The [Kettle] literal of [New]: every field not named is zero. *)
Definition Kettle_literal : Kettle :=
  {| name := "kettle"; verbose := false; pool := None; lock := None;
     master := 0; hostname := ""; startInput := None;
     masterQuit := None; masterDone := None; tickTime := 30 |}.

(** [for _, opt := range opts { opt.Apply(s) }] *)
Definition apply_opts (opts : list KettleOption) (s : Kettle) : Kettle :=
  foldl (fun s opt => Apply opt s) s opts.

(** *** [New] *)
Definition New (opts : list KettleOption) (env : gmap string string)
  : option Kettle * option goerror :=
  let s := apply_opts opts Kettle_literal in
  match lock s with
  | None =>
      match NewRedisPool env with
      | (_, Some err) => (None, Some err)
      | (pool, None) =>
          let s := set_pool pool s in
          let pools := [pool] in
          let s := set_lock
                     (Some (RedsyncMutex (name s +:+ "-distlocker")
                                         (Duration_mul time_Second (tickTime s))
                                         pools)) s in
          (Some s, None)
      end
  | Some _ => (Some s, None)
  end.

(** The value each class of option leaves: the last one of its class in
    argument order, or the default. *)
Fixpoint last_name (opts : list KettleOption) (d : string) : string :=
  match opts with
  | [] => d
  | withName v :: r => last_name r v
  | _ :: r => last_name r d
  end.
Fixpoint last_verbose (opts : list KettleOption) (d : bool) : bool :=
  match opts with
  | [] => d
  | withVerbose v :: r => last_verbose r v
  | _ :: r => last_verbose r d
  end.
Fixpoint last_lock (opts : list KettleOption) (d : option DistLocker) : option DistLocker :=
  match opts with
  | [] => d
  | withDistLocker v :: r => last_lock r v
  | _ :: r => last_lock r d
  end.
Fixpoint last_tickTime (opts : list KettleOption) (d : Z) : Z :=
  match opts with
  | [] => d
  | withTickTime v :: r => last_tickTime r v
  | _ :: r => last_tickTime r d
  end.

(** Whether an option of the [WithDistLocker] class is among [opts]. *)
Definition is_withDistLocker (w : KettleOption) : bool :=
  match w with withDistLocker _ => true | _ => false end.

(** ** Logging and what the code does to the outside world *)

Inductive colour : Type := Red | Green.

Inductive Event : Type :=
| EvLog (c : colour) (tag m : string)                      (* log.Printf("%s %s", c(tag), m) *)
| EvLock (r : option goerror)                              (* s.lock.Lock() returned r *)
| EvStore (v : Z)                                          (* atomic.StoreInt32(&s.master, v) *)
| EvMaster (f : gofunc) (ctx : iface) (r : option goerror) (* s.startInput.Master(ctx) returned r *)
| EvExit (code : Z).                                       (* os.Exit(code) *)

Definition newline : string := String (ascii_of_nat 10) "".

(** [fmt.Sprintln] of one string operand. *)
Definition Sprintln (m : string) : string := m +:+ newline.

Definition info (s : Kettle) (m : string) : list Event :=
  if negb (verbose s) then [] else [EvLog Green "[info]" (Sprintln m)].

(** The [...f] helpers take the message as [fmt.Sprintf] formats it. *)
Definition infof (s : Kettle) (m : string) : list Event :=
  if negb (verbose s) then [] else [EvLog Green "[info]" m].

Definition error (s : Kettle) (m : string) : list Event :=
  if negb (verbose s) then [] else [EvLog Red "[error]" (Sprintln m)].

Definition errorf (s : Kettle) (m : string) : list Event :=
  if negb (verbose s) then [] else [EvLog Red "[error]" m].

Definition fatal (s : Kettle) (m : string) : list Event :=
  (error s m ++ [EvExit 1])%list.

Definition fatalf (s : Kettle) (m : string) : list Event :=
  (errorf s m ++ [EvExit 1])%list.

Definition is_exit (e : Event) : bool :=
  match e with EvExit _ => true | _ => false end.

Definition is_master_call (e : Event) : bool :=
  match e with EvMaster _ _ _ => true | _ => false end.

(** ** The work cycle *)

(** A call either returns (with what it did) or panics. *)
Inductive Res (A : Type) : Type :=
| Ok (a : A) (evs : list Event)
| Panic (msg : string).
Arguments Ok {A} a evs.
Arguments Panic {A} msg.

Definition ret {A} (a : A) : Res A := Ok a [].

Definition bind {A B} (m : Res A) (f : A -> Res B) : Res B :=
  match m with
  | Ok a evs =>
      match f a with
      | Ok b evs' => Ok b (evs ++ evs')%list
      | Panic msg => Panic msg
      end
  | Panic msg => Panic msg
  end.

Notation "'do' x <- m ; k" := (bind m (fun x => k))
  (at level 10, x name, m at level 100, k at level 200).

Definition nil_deref : string :=
  "invalid memory address or nil pointer dereference".

Definition isMaster (s : Kettle) : bool :=
  if decide (master s = 1) then true else false.

(** [r] is what [s.lock.Lock()] returns this time. *)
Definition setMaster (s : Kettle) (r : option goerror) : Res Kettle :=
  match lock s with
  | None => Panic nil_deref
  | Some _ =>
      match r with
      | Some err =>
          Ok (set_master 0 s)
             ([EvLock r] ++
              infof s ("[" +:+ name s +:+ "] " +:+ hostname s +:+ " set to worker") ++
              [EvStore 0])%list
      | None =>
          Ok (set_master 1 s)
             ([EvLock r] ++
              infof s ("[" +:+ name s +:+ "] " +:+ hostname s +:+ " set to master") ++
              [EvStore 1])%list
      end
  end.

(** What a work cycle gets from outside: the result of [lock.Lock()] and,
    should the callback be called, the error it returns. *)
Record Cycle : Type := MkCycle {
  lock_ret : option goerror;
  master_ret : option goerror
}.

(** The rest of [work] after [s.setMaster()]: "Only if we are master". *)
Definition work_callback (s : Kettle) (cb : option goerror) : Res Kettle :=
  if isMaster s then
    match startInput s with
    | None => Panic nil_deref
    | Some i =>
        match Master i with
        | Some f => Ok s [EvMaster f (MasterCtx i) cb]
        | None => ret s
        end
    end
  else ret s.

(** The closure [work] of [doMaster]. *)
Definition work (s : Kettle) (o : Cycle) : Res Kettle :=
  do s1 <- setMaster s (lock_ret o);
  work_callback s1 (master_ret o).

(** Work cycles one after the other (the first invoke, then one per
    tick), with what each cycle did. *)
Fixpoint cycles (s : Kettle) (os : list Cycle) : option (Kettle * list (list Event)) :=
  match os with
  | [] => Some (s, [])
  | o :: r =>
      match work s o with
      | Ok s1 evs =>
          match cycles s1 r with
          | Some (s2, evss) => Some (s2, evs :: evss)
          | None => None
          end
      | Panic _ => None
      end
  end.

Definition succeeded (r : option goerror) : bool :=
  match r with None => true | Some _ => false end.

(** How many times the callback was called in a cycle. *)
Definition master_calls (evs : list Event) : nat :=
  length (List.filter is_master_call evs).

(** ** [Start] *)

(** What [Start] gets from outside: [os.Hostname()], [uuid.NewV4()] as
    printed by [%s], and the identity of the next channel [make] returns. *)
Record StartEnv : Type := MkStartEnv {
  os_Hostname : string;
  uuid_NewV4 : string;
  fresh_chan : nat
}.

Inductive Goroutine : Type :=
| GoWatcher (i : StartInput)     (* go func() { <-in.Quit ... }() *)
| GoDoMaster.                    (* go s.doMaster() *)

(** The kettle after the call, the goroutines spawned, the error returned. *)
Definition Start (s : Kettle) (in_ : option StartInput) (e : StartEnv)
  : Kettle * list Goroutine * option goerror :=
  match in_ with
  | None => (s, [], Some (Errorf "input cannot be nil"))
  | Some i =>
      let s := set_startInput (Some i) s in
      let hostname := os_Hostname e in
      let hostname := hostname +:+ ("__" +:+ uuid_NewV4 e) in
      let s := set_hostname hostname s in
      let s := set_masterQuit (Some (MkChan (fresh_chan e) 1)) s in
      let s := set_masterDone (Some (MkChan (S (fresh_chan e)) 1)) s in
      (s, [GoWatcher i; GoDoMaster], None)
  end.

(** ** The goroutines of a started kettle *)

(** Where the termination watcher of [Start] stands. *)
Inductive WatcherPc : Type :=
| WRecvQuit          (* blocked in <-in.Quit *)
| WSendMasterQuit    (* at s.masterQuit <- nil *)
| WRecvMasterDone    (* at <-s.masterDone *)
| WSendDone          (* at in.Done <- nil *)
| WReturned.

(** Where [doMaster] (and then the loop goroutine it spawns) stands.
    [first] tells the first invoke of [work] from those of the loop. *)
Inductive EnginePc : Type :=
| ENewTicker                    (* at time.NewTicker *)
| ECallWork (first : bool)      (* at work(): before tick, or succeeding ticks *)
| EInLock (first : bool)        (* in setMaster, inside s.lock.Lock() *)
| EInCallback (first : bool)    (* setMaster returned, at if s.isMaster() *)
| ESpawnLoop                    (* work() returned, at go func() *)
| ESelect                       (* blocked in select *)
| EAck                          (* at s.masterDone <- nil *)
| EReturned.

Inductive Label : Type :=
(* doMaster and its loop *)
| LNewTicker
| LWorkBegin
| LLockReturn (r : option goerror)
| LWorkEnd (cb : option goerror)
| LSpawnLoop
| LRecvTick
| LRecvMasterQuit
| LSendMasterDone
| LPanic
(* the termination watcher *)
| LRecvQuit
| LSendMasterQuit
| LRecvMasterDone
| LSendDone
(* the runtime's timer *)
| LTick.

Record Sys : Type := MkSys {
  kettle : Kettle;                    (* the shared *Kettle *)
  winput : StartInput;                (* the [in] the watcher closes over *)
  watcher : WatcherPc;
  engine : EnginePc;
  tickerC : option (list unit);       (* masterTicker.C once created (capacity 1) *)
  bufQuit : list (option goerror);    (* what is queued in s.masterQuit *)
  bufDone : list (option goerror);    (* what is queued in s.masterDone *)
  crashed : bool;                     (* a goroutine panicked: the process is gone *)
  trace : list Event
}.

(** A send on a buffered channel goes through when there is room; a nil
    channel blocks forever. *)
Definition chan_send {A} (c : option Chan) (buf : list A) (v : A) : option (list A) :=
  match c with
  | Some ch => if decide (length buf < chan_cap ch)%nat then Some (buf ++ [v])%list else None
  | None => None
  end.

Definition chan_recv {A} (c : option Chan) (buf : list A) : option (A * list A) :=
  match c, buf with
  | Some _, v :: r => Some (v, r)
  | _, _ => None
  end.

(** [time.Second * time.Duration(s.tickTime)] *)
Definition tick_duration (s : Kettle) : Z := Duration_mul time_Second (tickTime s).

Definition with_engine (pc : EnginePc) (k : Kettle) (evs : list Event) (s : Sys) : Sys :=
  MkSys k (winput s) (watcher s) pc (tickerC s) (bufQuit s) (bufDone s)
        (crashed s) (trace s ++ evs)%list.

Definition with_watcher (pc : WatcherPc) (evs : list Event) (s : Sys) : Sys :=
  MkSys (kettle s) (winput s) pc (engine s) (tickerC s) (bufQuit s) (bufDone s)
        (crashed s) (trace s ++ evs)%list.

Definition with_ticker (t : option (list unit)) (s : Sys) : Sys :=
  MkSys (kettle s) (winput s) (watcher s) (engine s) t (bufQuit s) (bufDone s)
        (crashed s) (trace s).

Definition with_bufQuit (b : list (option goerror)) (s : Sys) : Sys :=
  MkSys (kettle s) (winput s) (watcher s) (engine s) (tickerC s) b (bufDone s)
        (crashed s) (trace s).

Definition with_bufDone (b : list (option goerror)) (s : Sys) : Sys :=
  MkSys (kettle s) (winput s) (watcher s) (engine s) (tickerC s) (bufQuit s) b
        (crashed s) (trace s).

Definition crash (s : Sys) : Sys :=
  MkSys (kettle s) (winput s) (watcher s) (engine s) (tickerC s) (bufQuit s)
        (bufDone s) true (trace s).

(** After [work()] returns: the first invoke goes on to spawn the loop,
    the others go back to the select. *)
Definition after_work (first : bool) : EnginePc :=
  if first then ESpawnLoop else ESelect.

(** Whether the engine, where it stands, panics: [time.NewTicker] on a
    non-positive interval, a nil [s.lock], a nil [s.startInput]. *)
Definition panics (s : Sys) : bool :=
  match engine s with
  | ENewTicker => bool_decide (tick_duration (kettle s) <= 0)
  | EInLock _ => match setMaster (kettle s) None with Panic _ => true | Ok _ _ => false end
  | EInCallback _ => match work_callback (kettle s) None with Panic _ => true | Ok _ _ => false end
  | _ => false
  end.

(** One atomic action; [None] when the action is not enabled. *)
Definition step (s : Sys) (l : Label) : option Sys :=
  if crashed s then None else
  match l with
  | LNewTicker =>
      match engine s with
      | ENewTicker =>
          if decide (tick_duration (kettle s) <= 0) then None
          else Some (with_ticker (Some []) (with_engine (ECallWork true) (kettle s) [] s))
      | _ => None
      end
  | LWorkBegin =>
      match engine s with
      | ECallWork b => Some (with_engine (EInLock b) (kettle s) [] s)
      | _ => None
      end
  | LLockReturn r =>
      match engine s with
      | EInLock b =>
          match setMaster (kettle s) r with
          | Ok k evs => Some (with_engine (EInCallback b) k evs s)
          | Panic _ => None
          end
      | _ => None
      end
  | LWorkEnd cb =>
      match engine s with
      | EInCallback b =>
          match work_callback (kettle s) cb with
          | Ok k evs => Some (with_engine (after_work b) k evs s)
          | Panic _ => None
          end
      | _ => None
      end
  | LSpawnLoop =>
      match engine s with
      | ESpawnLoop => Some (with_engine ESelect (kettle s) [] s)
      | _ => None
      end
  | LRecvTick =>
      match engine s, tickerC s with
      | ESelect, Some (_ :: r) =>
          Some (with_ticker (Some r) (with_engine (ECallWork false) (kettle s) [] s))
      | _, _ => None
      end
  | LRecvMasterQuit =>
      match engine s with
      | ESelect =>
          match chan_recv (masterQuit (kettle s)) (bufQuit s) with
          | Some (_, r) => Some (with_bufQuit r (with_engine EAck (kettle s) [] s))
          | None => None
          end
      | _ => None
      end
  | LSendMasterDone =>
      match engine s with
      | EAck =>
          match chan_send (masterDone (kettle s)) (bufDone s) None with
          | Some b => Some (with_bufDone b (with_engine EReturned (kettle s) [] s))
          | None => None
          end
      | _ => None
      end
  | LPanic => if panics s then Some (crash s) else None
  | LRecvQuit =>
      match watcher s, Quit (winput s) with
      | WRecvQuit, Some _ =>
          Some (with_watcher WSendMasterQuit
                  (infof (kettle s) ("[" +:+ name (kettle s) +:+ "] requested to terminate")) s)
      | _, _ => None
      end
  | LSendMasterQuit =>
      match watcher s with
      | WSendMasterQuit =>
          match chan_send (masterQuit (kettle s)) (bufQuit s) None with
          | Some b => Some (with_bufQuit b (with_watcher WRecvMasterDone [] s))
          | None => None
          end
      | _ => None
      end
  | LRecvMasterDone =>
      match watcher s with
      | WRecvMasterDone =>
          match chan_recv (masterDone (kettle s)) (bufDone s) with
          | Some (_, r) =>
              Some (with_bufDone r
                      (with_watcher WSendDone
                         (infof (kettle s) ("[" +:+ name (kettle s) +:+ "] terminate complete")) s))
          | None => None
          end
      | _ => None
      end
  | LSendDone =>
      match watcher s, Done (winput s) with
      | WSendDone, Some _ => Some (with_watcher WReturned [] s)
      | _, _ => None
      end
  | LTick =>
      match tickerC s with
      | Some [] => Some (with_ticker (Some [()]) s)
      | Some _ => Some s
      | None => None
      end
  end.

(** A run: the actions taken, in order. *)
Fixpoint exec (s : Sys) (ls : list Label) : option Sys :=
  match ls with
  | [] => Some s
  | l :: r =>
      match step s l with
      | Some s' => exec s' r
      | None => None
      end
  end.

(** The system [Start] leaves behind: its two goroutines at their first
    statement, the channels empty. *)
Definition launch (st : Kettle * list Goroutine * option goerror) : option Sys :=
  match st with
  | (s, [GoWatcher i; GoDoMaster], None) =>
      Some (MkSys s i WRecvQuit ENewTicker None [] [] false [])
  | _ => None
  end.

(** The actions of the shutdown handshake, in the order of the code. *)
Definition handshake_order : list Label :=
  [LRecvQuit; LSendMasterQuit; LRecvMasterQuit; LSendMasterDone; LRecvMasterDone; LSendDone].

Definition is_handshake (l : Label) : bool :=
  match l with
  | LRecvQuit | LSendMasterQuit | LRecvMasterQuit
  | LSendMasterDone | LRecvMasterDone | LSendDone => true
  | _ => false
  end.

Definition handshake (ls : list Label) : list Label := List.filter is_handshake ls.

(** The actions of a work cycle. *)
Definition is_work (l : Label) : bool :=
  match l with
  | LWorkBegin | LLockReturn _ | LWorkEnd _ => true
  | _ => false
  end.

(** A work cycle is in flight. *)
Definition in_flight (pc : EnginePc) : bool :=
  match pc with
  | EInLock _ | EInCallback _ => true
  | _ => false
  end.

(** The engine loop has stopped for good. *)
Definition stopped (pc : EnginePc) : bool :=
  match pc with
  | EReturned => true
  | _ => false
  end.

(** The field an option assigns. *)
Inductive Field : Type := FName | FVerbose | FLock | FTickTime.

Definition field_of (w : KettleOption) : Field :=
  match w with
  | withName _ => FName
  | withVerbose _ => FVerbose
  | withDistLocker _ => FLock
  | withTickTime _ => FTickTime
  end.

(** [New] has built the default lock over the pool [p]. *)
Definition builds_default_lock (opts : list KettleOption) (env : gmap string string) (p : Pool) : Prop :=
  exists k,
    New opts env = (Some k, None) /\
    pool k = Some p /\
    lock k = Some (RedsyncMutex (name k +:+ "-distlocker")
                                (Duration_mul time_Second (tickTime k)) [Some p]) /\
    (-9223372036 <= tickTime k <= 9223372036 ->
     Duration_mul time_Second (tickTime k) = 1000000000 * tickTime k).

(** The value [setMaster] stores for an acquisition result. *)
Definition flag_of (r : option goerror) : Z := if succeeded r then 1 else 0.

(** The result of the last acquisition attempt that returned in a run
    ([d] when there is none). *)
Fixpoint last_lock_ret (ls : list Label) (d : option (option goerror))
  : option (option goerror) :=
  match ls with
  | [] => d
  | LLockReturn r :: t => last_lock_ret t (Some r)
  | _ :: t => last_lock_ret t d
  end.

(** How many times the callback is to be called in a cycle. *)
Definition expected_calls (i : StartInput) (o : Cycle) : nat :=
  if succeeded (lock_ret o) && bool_decide (Master i <> None) then 1%nat else 0%nat.

Definition no_exit (evs : list Event) : Prop := Forall (fun e => is_exit e = false) evs.

(** The engine has taken the stop signal: it acknowledges and returns. *)
Definition stopping (pc : EnginePc) : bool :=
  match pc with
  | EAck | EReturned => true
  | _ => false
  end.

(** Two states of the system that differ at most in the record of what
    was done. *)
Definition same_state (a b : Sys) : Prop :=
  kettle a = kettle b /\ winput a = winput b /\ watcher a = watcher b /\
  engine a = engine b /\ tickerC a = tickerC b /\ bufQuit a = bufQuit b /\
  bufDone a = bufDone b /\ crashed a = crashed b.

(** ** Invariants of the runs *)

(** How far the shutdown handshake has come. *)
Definition hs_done (s : Sys) : nat :=
  match watcher s with
  | WRecvQuit => 0
  | WSendMasterQuit => 1
  | WRecvMasterDone =>
      match engine s with
      | EAck => 3
      | EReturned => 4
      | _ => 2
      end
  | WSendDone => 5
  | WReturned => 6
  end.

(** The channels of [Start], and what is queued in them at each point of
    the handshake. *)
Definition handshake_inv (s : Sys) : Prop :=
  (exists c, masterQuit (kettle s) = Some c /\ chan_cap c = 1%nat) /\
  (exists c, masterDone (kettle s) = Some c /\ chan_cap c = 1%nat) /\
  match watcher s, engine s with
  | (WRecvQuit | WSendMasterQuit), (EAck | EReturned) => False
  | (WRecvQuit | WSendMasterQuit), _ => bufQuit s = [] /\ bufDone s = []
  | WRecvMasterDone, EAck => bufQuit s = [] /\ bufDone s = []
  | WRecvMasterDone, EReturned => bufQuit s = [] /\ bufDone s = [None]
  | WRecvMasterDone, _ => bufQuit s = [None] /\ bufDone s = []
  | (WSendDone | WReturned), EReturned => bufQuit s = [] /\ bufDone s = []
  | (WSendDone | WReturned), _ => False
  end.

(** Nothing can make the engine panic, and [Done] can be sent on. *)
Definition live_inv (s : Sys) : Prop :=
  crashed s = false /\
  lock (kettle s) <> None /\
  startInput (kettle s) <> None /\
  Done (winput s) <> None /\
  0 < tick_duration (kettle s).

(** An action that brings the shutdown forward once [Quit] was received. *)
Definition next_label (s : Sys) : Label :=
  match watcher s with
  | WRecvQuit => LRecvQuit
  | WSendMasterQuit => LSendMasterQuit
  | WRecvMasterDone =>
      match engine s with
      | ENewTicker => LNewTicker
      | ECallWork _ => LWorkBegin
      | EInLock _ => LLockReturn None
      | EInCallback _ => LWorkEnd None
      | ESpawnLoop => LSpawnLoop
      | ESelect => LRecvMasterQuit
      | EAck => LSendMasterDone
      | EReturned => LRecvMasterDone
      end
  | WSendDone => LSendDone
  | WReturned => LSendDone
  end.

(** A bound on the actions left until [Done] is sent. *)
Definition rank (s : Sys) : nat :=
  (match watcher s with
   | WRecvQuit => 40
   | WSendMasterQuit => 30
   | WRecvMasterDone => 20
   | WSendDone => 10
   | WReturned => 0
   end +
   match engine s with
   | ENewTicker => 7
   | ECallWork _ => 6
   | EInLock _ => 5
   | EInCallback _ => 4
   | ESpawnLoop => 3
   | ESelect => 2
   | EAck => 1
   | EReturned => 0
   end)%nat.

(** What of the engine's actions a run has seen. *)
Definition is_new_ticker (l : Label) : bool := match l with LNewTicker => true | _ => false end.
Definition is_work_begin (l : Label) : bool := match l with LWorkBegin => true | _ => false end.
Definition is_lock_return (l : Label) : bool := match l with LLockReturn _ => true | _ => false end.
Definition is_work_end (l : Label) : bool := match l with LWorkEnd _ => true | _ => false end.
Definition is_spawn_loop (l : Label) : bool := match l with LSpawnLoop => true | _ => false end.
Definition is_loop_recv (l : Label) : bool :=
  match l with LRecvTick | LRecvMasterQuit => true | _ => false end.

Record Seen : Type := MkSeen {
  seen_ticker : bool; seen_begin : bool; seen_lock : bool;
  seen_end : bool; seen_spawn : bool; seen_recv : bool
}.

Definition seen (ls : list Label) : Seen :=
  MkSeen (existsb is_new_ticker ls) (existsb is_work_begin ls) (existsb is_lock_return ls)
         (existsb is_work_end ls) (existsb is_spawn_loop ls) (existsb is_loop_recv ls).

(** What a run has seen, by where the engine stands. *)
Definition engine_seen (pc : EnginePc) (h : Seen) : Prop :=
  match pc with
  | ENewTicker => h = MkSeen false false false false false false
  | ECallWork true => h = MkSeen true false false false false false
  | EInLock true => h = MkSeen true true false false false false
  | EInCallback true => h = MkSeen true true true false false false
  | ESpawnLoop => h = MkSeen true true true true false false
  | _ => seen_ticker h = true /\ seen_begin h = true /\ seen_lock h = true /\
         seen_end h = true /\ seen_spawn h = true
  end.

(** ** The getters *)

Definition Name (s : Kettle) : string := name s.
Definition IsVerbose (s : Kettle) : bool := verbose s.
Definition Kettle_Pool (s : Kettle) : option Pool := pool s.

(** ** Counting along a run *)

Definition count (p : Label -> bool) (ls : list Label) : nat := length (List.filter p ls).

Definition is_tick (l : Label) : bool := match l with LTick => true | _ => false end.
Definition is_recv_tick (l : Label) : bool := match l with LRecvTick => true | _ => false end.
Definition is_lock_success (l : Label) : bool :=
  match l with LLockReturn None => true | _ => false end.
Definition is_recv_quit (l : Label) : bool := match l with LRecvQuit => true | _ => false end.
Definition is_recv_master_done (l : Label) : bool :=
  match l with LRecvMasterDone => true | _ => false end.
Definition is_panic (l : Label) : bool := match l with LPanic => true | _ => false end.

Definition is_log (e : Event) : bool :=
  match e with EvLog _ _ _ => true | _ => false end.

Definition log_lines (evs : list Event) : nat := length (List.filter is_log evs).

(** A call of the callback is a call of [in.Master] on [in.MasterCtx]. *)
Definition call_of (i : StartInput) (e : Event) : Prop :=
  match e with
  | EvMaster f c _ => Master i = Some f /\ c = MasterCtx i
  | _ => True
  end.

(** The call the engine is about to make: it is past a successful
    [setMaster] and [Master] is not nil. *)
Definition pending_call (i : StartInput) (s : Sys) : nat :=
  match engine s with
  | EInCallback _ =>
      if isMaster (kettle s) && bool_decide (Master i <> None) then 1%nat else 0%nat
  | _ => 0%nat
  end.

(** The first invoke of [work] has begun. *)
Definition first_begun (pc : EnginePc) : nat :=
  match pc with
  | ENewTicker | ECallWork true => 0%nat
  | _ => 1%nat
  end.

(** A tick was received and its invoke of [work] has not begun. *)
Definition tick_taken (pc : EnginePc) : nat :=
  match pc with
  | ECallWork false => 1%nat
  | _ => 0%nat
  end.

(** Nothing can make the engine panic. *)
Definition engine_safe (s : Sys) : Prop :=
  crashed s = false /\
  lock (kettle s) <> None /\
  startInput (kettle s) <> None /\
  0 < tick_duration (kettle s).

(** ** Sample inputs *)

Definition env_host : gmap string string := {[ "REDIS_HOST" := "localhost:6379" ]}.

Definition env_bad_timeout : gmap string string :=
  <[ "REDIS_TIMEOUT_SECONDS" := "5s" ]> env_host.

Definition pool_host : Pool := MkPool 3 4 true 240000000000 "localhost:6379" [].

Definition opts_sample : list KettleOption :=
  [WithName "a"; WithTickTime 5; WithName "b"].

Definition kettle_sample : Kettle :=
  MkKettle "b" false (Some pool_host)
           (Some (RedsyncMutex "b-distlocker" 5000000000 [Some pool_host]))
           0 "" None None None 5.


Definition input_sample : StartInput :=
  MkStartInput (Some (FuncRef 0)) (IString "ctx") (Some (MkChan 0 0)) (Some (MkChan 1 0)).

Definition input_nil_master : StartInput :=
  MkStartInput None INil (Some (MkChan 0 0)) (Some (MkChan 1 0)).

Definition start_env : StartEnv := MkStartEnv "node1" "6ba7b810" 2.

Definition started (i : StartInput) : Kettle := (Start kettle_sample (Some i) start_env).1.1.

Definition lock_busy : option goerror := Some (Errorf "redsync: failed to acquire lock").


Definition sys_sample : Sys :=
  MkSys (started input_sample) input_sample WRecvQuit ENewTicker None [] [] false [].

(** A run: the first cycle wins the lock while a quit request comes in,
    a tick starts a second cycle, which loses it, then the shutdown. *)
Definition run_sample : list Label :=
  [LNewTicker; LWorkBegin; LRecvQuit; LSendMasterQuit; LLockReturn None; LWorkEnd None;
   LSpawnLoop; LTick; LRecvTick; LWorkBegin; LLockReturn lock_busy; LWorkEnd None;
   LRecvMasterQuit; LSendMasterDone; LRecvMasterDone; LSendDone].

Definition env_full : gmap string string :=
  <[ "REDIS_PASSWORD" := "secret" ]> (<[ "REDIS_TIMEOUT_SECONDS" := "5" ]> env_host).

Definition opts_custom : list KettleOption :=
  [WithDistLocker (Some (UserLocker 1)); WithTickTime 0].

Definition kettle_custom : Kettle :=
  MkKettle "kettle" false None (Some (UserLocker 1)) 0 "" None None None 0.

Definition sys_custom : Sys :=
  MkSys (Start kettle_custom (Some input_sample) start_env).1.1
        input_sample WRecvQuit ENewTicker None [] [] false [].

(* ================================================================= *)
(** * Theorems *)

Lemma apply_opts_fields opts s :
  name (apply_opts opts s) = last_name opts (name s) /\
  verbose (apply_opts opts s) = last_verbose opts (verbose s) /\
  lock (apply_opts opts s) = last_lock opts (lock s) /\
  tickTime (apply_opts opts s) = last_tickTime opts (tickTime s) /\
  pool (apply_opts opts s) = pool s /\
  master (apply_opts opts s) = master s /\
  hostname (apply_opts opts s) = hostname s /\
  startInput (apply_opts opts s) = startInput s /\
  masterQuit (apply_opts opts s) = masterQuit s /\
  masterDone (apply_opts opts s) = masterDone s.
Proof.
  revert s. induction opts as [|w r IH]; intros s; [done|].
  unfold apply_opts in *. cbn [foldl].
  specialize (IH (Apply w s)).
  destruct w; cbn in *; exact IH.
Qed.

Lemma last_name_none opts d :
  Forall (fun w => field_of w <> FName) opts -> last_name opts d = d.
Proof.
  induction 1 as [|w r Hw _ IH]; [done|].
  destruct w; cbn in *; congruence.
Qed.

Lemma last_verbose_none opts d :
  Forall (fun w => field_of w <> FVerbose) opts -> last_verbose opts d = d.
Proof.
  induction 1 as [|w r Hw _ IH]; [done|].
  destruct w; cbn in *; congruence.
Qed.

Lemma last_lock_none opts d :
  Forall (fun w => field_of w <> FLock) opts -> last_lock opts d = d.
Proof.
  induction 1 as [|w r Hw _ IH]; [done|].
  destruct w; cbn in *; congruence.
Qed.

Lemma last_tickTime_none opts d :
  Forall (fun w => field_of w <> FTickTime) opts -> last_tickTime opts d = d.
Proof.
  induction 1 as [|w r Hw _ IH]; [done|].
  destruct w; cbn in *; congruence.
Qed.

Lemma last_name_app o1 o2 d :
  last_name (o1 ++ o2) d = last_name o2 (last_name o1 d).
Proof. revert d. induction o1 as [|w r IH]; intros d; [done|]. destruct w; cbn; apply IH. Qed.

Lemma last_verbose_app o1 o2 d :
  last_verbose (o1 ++ o2) d = last_verbose o2 (last_verbose o1 d).
Proof. revert d. induction o1 as [|w r IH]; intros d; [done|]. destruct w; cbn; apply IH. Qed.

Lemma last_lock_app o1 o2 d :
  last_lock (o1 ++ o2) d = last_lock o2 (last_lock o1 d).
Proof. revert d. induction o1 as [|w r IH]; intros d; [done|]. destruct w; cbn; apply IH. Qed.

Lemma last_tickTime_app o1 o2 d :
  last_tickTime (o1 ++ o2) d = last_tickTime o2 (last_tickTime o1 d).
Proof. revert d. induction o1 as [|w r IH]; intros d; [done|]. destruct w; cbn; apply IH. Qed.

(** What [New] returns, by the lock the options leave. *)
Lemma New_custom opts env dl :
  last_lock opts None = Some dl ->
  New opts env = (Some (apply_opts opts Kettle_literal), None).
Proof.
  intros H. unfold New.
  destruct (apply_opts_fields opts Kettle_literal) as (_ & _ & Hl & _).
  cbn in Hl. rewrite Hl, H. done.
Qed.

Lemma New_default opts env :
  last_lock opts None = None ->
  New opts env =
    match NewRedisPool env with
    | (_, Some err) => (None, Some err)
    | (p, None) =>
        (Some (set_lock
                 (Some (RedsyncMutex (last_name opts "kettle" +:+ "-distlocker")
                                     (Duration_mul time_Second (last_tickTime opts 30))
                                     [p]))
                 (set_pool p (apply_opts opts Kettle_literal))), None)
    end.
Proof.
  intros H. unfold New.
  destruct (apply_opts_fields opts Kettle_literal) as (Hn & _ & Hl & Ht & _).
  cbn in Hl, Hn, Ht. rewrite Hl, H.
  destruct (NewRedisPool env) as [p [e|]]; [done|].
  cbn. rewrite Hn, Ht. done.
Qed.

Lemma Duration_mul_Second_exact t :
  -9223372036 <= t <= 9223372036 -> Duration_mul time_Second t = 1000000000 * t.
Proof.
  intros H. unfold Duration_mul, wrap64, time_Second.
  rewrite Z.mod_small; lia.
Qed.

(** C9. Options are applied in argument order, each assigning its own
    field of the kettle and no other, so that of two options of one class
    the later one wins; a kettle built without options is named "kettle"
    and ticks every 30 seconds. *)
Theorem C9_options_last_writer_wins (opts : list KettleOption) (env : gmap string string) (k : Kettle) :
  New opts env = (Some k, None) ->
  (* each option assigns its own field and no other *)
  (forall w s,
      (field_of w <> FName -> name (Apply w s) = name s) /\
      (field_of w <> FVerbose -> verbose (Apply w s) = verbose s) /\
      (field_of w <> FLock -> lock (Apply w s) = lock s) /\
      (field_of w <> FTickTime -> tickTime (Apply w s) = tickTime s) /\
      pool (Apply w s) = pool s /\ master (Apply w s) = master s /\
      hostname (Apply w s) = hostname s /\ startInput (Apply w s) = startInput s /\
      masterQuit (Apply w s) = masterQuit s /\ masterDone (Apply w s) = masterDone s) /\
  (* the last option of a class wins *)
  (forall o1 o2 v, opts = o1 ++ WithName v :: o2 ->
      Forall (fun w => field_of w <> FName) o2 -> name k = v) /\
  (forall o1 o2 v, opts = o1 ++ WithVerbose v :: o2 ->
      Forall (fun w => field_of w <> FVerbose) o2 -> verbose k = v) /\
  (forall o1 o2 v, opts = o1 ++ WithTickTime v :: o2 ->
      Forall (fun w => field_of w <> FTickTime) o2 -> tickTime k = v) /\
  (forall o1 o2 dl, opts = o1 ++ WithDistLocker (Some dl) :: o2 ->
      Forall (fun w => field_of w <> FLock) o2 -> lock k = Some dl) /\
  (* the defaults *)
  (Forall (fun w => field_of w <> FName) opts -> name k = "kettle") /\
  (Forall (fun w => field_of w <> FTickTime) opts -> tickTime k = 30) /\
  (opts = [] -> name k = "kettle" /\ tickTime k = 30 /\ verbose k = false).
Proof.
  intros HN.
  assert (Hk : name k = last_name opts "kettle" /\
               verbose k = last_verbose opts false /\
               tickTime k = last_tickTime opts 30 /\
               (forall dl, last_lock opts None = Some dl -> lock k = Some dl)).
  { destruct (apply_opts_fields opts Kettle_literal) as (Hn & Hv & Hl & Ht & _).
    cbn in Hn, Hv, Hl, Ht.
    destruct (last_lock opts None) as [dl|] eqn:E.
    - rewrite (New_custom _ _ _ E) in HN. injection HN as <-.
      rewrite Hl. repeat split; try done.
    - rewrite (New_default _ _ E) in HN.
      destruct (NewRedisPool env) as [p [e|]]; [done|].
      injection HN as <-. cbn. repeat split; done. }
  destruct Hk as (Hn & Hv & Ht & Hl).
  split; [|split; [|split; [|split; [|split; [|split; [|split]]]]]].
  - intros w s. destruct w; cbn; repeat split; try done.
  - intros o1 o2 v -> HF. rewrite Hn, last_name_app. cbn. by apply last_name_none.
  - intros o1 o2 v -> HF. rewrite Hv, last_verbose_app. cbn. by apply last_verbose_none.
  - intros o1 o2 v -> HF. rewrite Ht, last_tickTime_app. cbn. by apply last_tickTime_none.
  - intros o1 o2 dl -> HF. apply Hl. rewrite last_lock_app. cbn. by apply last_lock_none.
  - intros HF. rewrite Hn. by apply last_name_none.
  - intros HF. rewrite Ht. by apply last_tickTime_none.
  - intros ->. cbn in *. done.
Qed.

Lemma C9_options_witness :
  New opts_sample env_host = (Some kettle_sample, None) /\
  name kettle_sample = "b" /\ tickTime kettle_sample = 5.
Proof.
  assert (H : New opts_sample env_host = (Some kettle_sample, None)) by reflexivity.
  split; [exact H|].
  destruct (C9_options_last_writer_wins opts_sample env_host kettle_sample H)
    as (_ & Hn & _ & Ht & _).
  split.
  - apply (Hn [WithName "a"; WithTickTime 5] [] "b"); [reflexivity | constructor].
  - apply (Ht [WithName "a"] [WithName "b"] 5); [reflexivity|].
    repeat constructor; discriminate.
Defined.

(** C7, as stated, fails: an option of the [WithDistLocker] class may carry
    a nil locker; [New] then still builds the default backend, and fails
    when the environment has no [REDIS_HOST]. *)
Lemma C7_counterexample :
  ~ (existsb is_withDistLocker [WithDistLocker None] = true ->
     exists k, New [WithDistLocker None] ∅ = (Some k, None)).
Proof.
  intros H. destruct (H eq_refl) as [k Hk]. vm_compute in Hk. discriminate.
Qed.

(** C7 (amended). When the options leave no locker (none of the
    [WithDistLocker] class was given, or the last one given is nil), [New]
    builds the default pool and then a lock whose key is the node name
    followed by "-distlocker" and whose expiry is
    [time.Second * time.Duration(tickTime)], which is [tickTime] seconds
    unless the product overflows; when the last option of the class
    carries a locker, [New] keeps it, builds no pool and cannot fail,
    whatever the environment. *)
Theorem C7_default_lock (opts : list KettleOption) (env : gmap string string) :
  (forall p, Forall (fun w => field_of w <> FLock) opts ->
       NewRedisPool env = (Some p, None) -> builds_default_lock opts env p) /\
  (forall p o1 o2, opts = o1 ++ WithDistLocker None :: o2 ->
       Forall (fun w => field_of w <> FLock) o2 ->
       NewRedisPool env = (Some p, None) -> builds_default_lock opts env p) /\
  (forall dl o1 o2, opts = o1 ++ WithDistLocker (Some dl) :: o2 ->
       Forall (fun w => field_of w <> FLock) o2 ->
       exists k, (forall env', New opts env' = (Some k, None)) /\
                 lock k = Some dl /\ pool k = None).
Proof.
  assert (HA : forall p, last_lock opts None = None ->
                 NewRedisPool env = (Some p, None) -> builds_default_lock opts env p).
  { intros p Hl Hp. unfold builds_default_lock.
    rewrite (New_default _ _ Hl), Hp.
    eexists. split; [reflexivity|]. cbn.
    destruct (apply_opts_fields opts Kettle_literal) as (Hn & _ & _ & Ht & _).
    cbn in Hn, Ht. rewrite Hn, Ht.
    repeat split; try done. apply Duration_mul_Second_exact. }
  split; [|split].
  - intros p HF Hp. apply HA; [|done]. by apply last_lock_none.
  - intros p o1 o2 -> HF Hp. apply HA; [|done].
    rewrite last_lock_app. cbn. by apply last_lock_none.
  - intros dl o1 o2 -> HF.
    assert (Hl : last_lock (o1 ++ WithDistLocker (Some dl) :: o2) None = Some dl).
    { rewrite last_lock_app. cbn. by apply last_lock_none. }
    eexists. split; [intros env'; apply (New_custom _ _ _ Hl)|].
    destruct (apply_opts_fields (o1 ++ WithDistLocker (Some dl) :: o2) Kettle_literal)
      as (_ & _ & Hl' & _ & Hp & _).
    change (lock Kettle_literal) with (@None DistLocker) in Hl'.
    rewrite Hl', Hp, Hl. done.
Qed.

Lemma C7_default_lock_witness :
  builds_default_lock opts_sample env_host pool_host /\
  exists k, New [WithDistLocker (Some (UserLocker 7))] ∅ = (Some k, None) /\
            lock k = Some (UserLocker 7) /\ pool k = None.
Proof.
  split.
  - apply (C7_default_lock opts_sample env_host).
    + repeat constructor; discriminate.
    + reflexivity.
  - destruct (C7_default_lock [WithDistLocker (Some (UserLocker 7))] ∅) as (_ & _ & H).
    destruct (H (UserLocker 7) [] [] eq_refl (List.Forall_nil _)) as (k & Hk & Hl & Hp).
    exists k. split; [apply Hk | split; assumption].
Defined.

(** C8. Building the default backend fails when [REDIS_HOST] is not set
    (or empty), and when [REDIS_TIMEOUT_SECONDS] is set to something
    [strconv.Atoi] rejects; when [New] has to build the default backend
    it returns that very error, and no kettle. *)
Theorem C8_default_backend_errors (opts : list KettleOption) (env : gmap string string) :
  last_lock opts None = None ->
  (Getenv env "REDIS_HOST" = "" ->
     exists err, NewRedisPool env = (None, Some err) /\ New opts env = (None, Some err)) /\
  (forall z err,
     Getenv env "REDIS_TIMEOUT_SECONDS" <> "" ->
     Atoi (Getenv env "REDIS_TIMEOUT_SECONDS") = (z, Some err) ->
     exists err', NewRedisPool env = (None, Some err') /\ New opts env = (None, Some err') /\
                  (Getenv env "REDIS_HOST" <> "" -> err' = err)).
Proof.
  intros Hl. rewrite (New_default _ _ Hl). split.
  - intros Hh. unfold NewRedisPool. rewrite Hh. cbn. eexists. split; reflexivity.
  - intros z err Htm Ha. unfold NewRedisPool.
    destruct (decide (Getenv env "REDIS_HOST" = "")) as [Hh|Hh].
    + eexists. split; [reflexivity|]. split; [reflexivity|]. done.
    + destruct (decide (Getenv env "REDIS_TIMEOUT_SECONDS" <> "")) as [_|F]; [|done].
      rewrite Ha. exists err. done.
Qed.

Lemma C8_default_backend_errors_witness :
  (exists err, New [] ∅ = (None, Some err)) /\
  New [] env_bad_timeout = (None, Some (NumError "Atoi" "5s" "invalid syntax")).
Proof.
  split.
  - destruct (C8_default_backend_errors [] ∅ eq_refl) as [H _].
    destruct (H eq_refl) as (err & _ & HN). exists err. exact HN.
  - destruct (C8_default_backend_errors [] env_bad_timeout eq_refl) as [_ H].
    destruct (H 0 (NumError "Atoi" "5s" "invalid syntax")) as (err & _ & HN & He).
    + vm_compute. discriminate.
    + vm_compute. reflexivity.
    + rewrite HN. rewrite He; [reflexivity|]. vm_compute. discriminate.
Defined.

(** ** The work cycle *)

Lemma setMaster_ok s r :
  lock s <> None ->
  exists evs, setMaster s r = Ok (set_master (flag_of r) s) evs /\
              no_exit evs /\ master_calls evs = 0%nat.
Proof.
  intros Hl. unfold setMaster, infof, no_exit, master_calls.
  destruct (lock s); [|done].
  destruct r, (verbose s); cbn; eexists; (split; [reflexivity|]);
    split; try done; repeat constructor.
Qed.

Lemma isMaster_set_master v s : isMaster (set_master v s) = bool_decide (v = 1).
Proof.
  unfold isMaster. cbn. destruct (decide (v = 1)) as [E|E].
  - by rewrite bool_decide_true.
  - by rewrite bool_decide_false.
Qed.

Lemma isMaster_flag_of r s : isMaster (set_master (flag_of r) s) = succeeded r.
Proof. rewrite isMaster_set_master. by destruct r. Qed.

Lemma work_callback_ok s i cb :
  startInput s = Some i ->
  exists evs, work_callback s cb = Ok s evs /\ no_exit evs /\
              master_calls evs =
                (if isMaster s && bool_decide (Master i <> None) then 1 else 0)%nat.
Proof.
  intros Hi. unfold work_callback, ret, no_exit, master_calls. rewrite Hi.
  destruct (isMaster s); [|by eexists].
  destruct (Master i) as [f|]; eexists; (split; [reflexivity|]); cbn;
    split; try done; repeat constructor.
Qed.

Lemma master_calls_app e1 e2 :
  master_calls (e1 ++ e2) = (master_calls e1 + master_calls e2)%nat.
Proof. unfold master_calls. by rewrite List.filter_app, length_app. Qed.

Lemma work_ok s i o :
  lock s <> None -> startInput s = Some i ->
  exists evs, work s o = Ok (set_master (flag_of (lock_ret o)) s) evs /\
              no_exit evs /\ master_calls evs = expected_calls i o.
Proof.
  intros Hl Hi. unfold work, bind.
  destruct (setMaster_ok s (lock_ret o) Hl) as (e1 & -> & Hx1 & Hc1).
  destruct (work_callback_ok (set_master (flag_of (lock_ret o)) s) i (master_ret o) Hi)
    as (e2 & -> & Hx2 & Hc2).
  eexists. split; [reflexivity|]. split.
  - by apply Forall_app.
  - rewrite master_calls_app, Hc1, Hc2, isMaster_flag_of. done.
Qed.

(** The kettle after a sequence of cycles, and what was done. *)
Lemma cycles_ok os : forall s i,
  lock s <> None -> startInput s = Some i ->
  exists evss,
    cycles s os = Some (foldl (fun s o => set_master (flag_of (lock_ret o)) s) s os, evss) /\
    Forall no_exit evss /\
    map master_calls evss = map (expected_calls i) os.
Proof.
  induction os as [|o r IH]; intros s i Hl Hi; [by exists []|].
  destruct (work_ok s i o Hl Hi) as (evs & Hw & Hx & Hc).
  destruct (IH (set_master (flag_of (lock_ret o)) s) i Hl Hi) as (evss & Hr & Hxs & Hcs).
  exists (evs :: evss). cbn [cycles foldl]. rewrite Hw, Hr.
  split; [done|]. split; [by constructor|]. cbn. by rewrite Hc, Hcs.
Qed.

(** ** Runs of the goroutines *)

Lemma exec_app s l1 l2 :
  exec s (l1 ++ l2) = match exec s l1 with Some s' => exec s' l2 | None => None end.
Proof.
  revert s. induction l1 as [|l r IH]; intros s; [done|].
  cbn. destruct (step s l); [apply IH | done].
Qed.

Lemma exec_snoc s ls l s' :
  exec s (ls ++ [l]) = Some s' ->
  exists s1, exec s ls = Some s1 /\ step s1 l = Some s'.
Proof.
  rewrite exec_app. destruct (exec s ls) as [s1|]; [|done].
  cbn. destruct (step s1 l) eqn:E; [|done]. intros [= <-]. by exists s1.
Qed.

(** Induction along a run. *)
Lemma exec_ind (P : list Label -> Sys -> Prop) s0 :
  P [] s0 ->
  (forall ls s l s', exec s0 ls = Some s -> P ls s -> step s l = Some s' -> P (ls ++ [l]) s') ->
  forall ls s, exec s0 ls = Some s -> P ls s.
Proof.
  intros H0 HS ls. induction ls as [|l ls IH] using rev_ind; intros s H.
  - cbn in H. by injection H as <-.
  - apply exec_snoc in H as (s1 & H1 & H2). eauto.
Qed.

Ltac step_inv H :=
  unfold step in H; repeat case_match; simplify_eq; cbn in *; simplify_eq.

Lemma last_lock_ret_app l1 l2 d :
  last_lock_ret (l1 ++ l2) d = last_lock_ret l2 (last_lock_ret l1 d).
Proof. revert d. induction l1 as [|l r IH]; intros d; [done|]. destruct l; cbn; apply IH. Qed.

Lemma setMaster_master s r k evs : setMaster s r = Ok k evs -> master k = flag_of r.
Proof. unfold setMaster. destruct (lock s), r; intros [= <- _]; done. Qed.

Lemma work_callback_kettle s cb k evs : work_callback s cb = Ok k evs -> k = s.
Proof.
  unfold work_callback, ret. destruct (isMaster s); [|by intros [= <- _]].
  destruct (startInput s) as [i|]; [|done]. destruct (Master i); by intros [= <- _].
Qed.

(** In every run the flag holds what the last acquisition attempt to
    return gave, and a cycle that is past its attempt has one. *)
Lemma run_master_flag s0 ls s :
  engine s0 = ENewTicker ->
  exec s0 ls = Some s ->
  master (kettle s) = match last_lock_ret ls None with
                      | Some r => flag_of r
                      | None => master (kettle s0)
                      end /\
  (forall b, engine s = EInCallback b -> last_lock_ret ls None <> None).
Proof.
  intros H0. revert ls s. apply exec_ind.
  - split; [done|]. intros b. by rewrite H0.
  - intros ls s l s' _ [IH1 IH2] Hs. rewrite last_lock_ret_app.
    destruct l; step_inv Hs.
    all: repeat match goal with
           | H : setMaster _ _ = Ok _ _ |- _ => apply setMaster_master in H
           | H : work_callback _ _ = Ok _ _ |- _ => apply work_callback_kettle in H; subst
           end.
    all: try (split; [done | by intros]).
    all: try (split; [done | intros; eauto]).
Qed.

Lemma launch_Start s0 i e :
  launch (Start s0 (Some i) e) =
    Some (MkSys (Start s0 (Some i) e).1.1 i WRecvQuit ENewTicker None [] [] false []).
Proof. reflexivity. Qed.

Lemma foldl_set_master_snoc s os o :
  foldl (fun s o => set_master (flag_of (lock_ret o)) s) s (os ++ [o]) =
  set_master (flag_of (lock_ret o))
             (foldl (fun s o => set_master (flag_of (lock_ret o)) s) s os).
Proof. by rewrite foldl_app. Qed.

(** C1. Whatever the acquisition attempts give, after each work cycle
    [isMaster] is the result of that cycle's attempt: [setMaster] stores 1
    when [lock.Lock()] returns nil and 0 when it returns an error. It
    holds of the cycles run one after the other and of every run of the
    started kettle's goroutines, where the flag is at all times the result
    of the last attempt that returned. *)
Theorem C1_flag_is_last_acquisition (s : Kettle) (i : StartInput) (os : list Cycle) (o : Cycle) :
  lock s <> None -> startInput s = Some i ->
  (exists evs, setMaster s (lock_ret o) = Ok (set_master (flag_of (lock_ret o)) s) evs) /\
  (exists s' evss,
      cycles s (os ++ [o]) = Some (s', evss) /\
      isMaster s' = succeeded (lock_ret o) /\
      master s' = (if succeeded (lock_ret o) then 1 else 0)) /\
  (forall s0 i0 e sys0 ls cb sys',
      launch (Start s0 (Some i0) e) = Some sys0 ->
      exec sys0 (ls ++ [LWorkEnd cb]) = Some sys' ->
      exists r, last_lock_ret ls None = Some r /\
                isMaster (kettle sys') = succeeded r).
Proof.
  intros Hl Hi. split; [|split].
  - destruct (setMaster_ok s (lock_ret o) Hl) as (evs & H & _). by exists evs.
  - destruct (cycles_ok (os ++ [o]) s i Hl Hi) as (evss & H & _).
    eexists _, evss. split; [exact H|].
    rewrite foldl_set_master_snoc. split; [apply isMaster_flag_of | done].
  - intros s0 i0 e sys0 ls cb sys' HL HE.
    rewrite launch_Start in HL. injection HL as <-.
    apply exec_snoc in HE as (s1 & H1 & H2).
    step_inv H2.
    match goal with H : work_callback _ _ = _ |- _ => apply work_callback_kettle in H as -> end.
    apply run_master_flag in H1 as [Hm Hc]; [|reflexivity].
    match goal with H : engine s1 = EInCallback ?b |- _ => specialize (Hc b H) end.
    destruct (last_lock_ret ls None) as [r|]; [|done].
    exists r. split; [done|]. unfold isMaster. rewrite Hm.
    by destruct r.
Qed.

Lemma C1_flag_witness :
  exists s' evss,
    cycles (started input_sample)
           ([MkCycle None None; MkCycle None lock_busy] ++ [MkCycle lock_busy None])
      = Some (s', evss) /\
    isMaster s' = false /\ master s' = 0.
Proof.
  destruct (C1_flag_is_last_acquisition (started input_sample) input_sample
              [MkCycle None None; MkCycle None lock_busy] (MkCycle lock_busy None))
    as (_ & (s' & evss & H) & _).
  - vm_compute. discriminate.
  - reflexivity.
  - exists s', evss. exact H.
Defined.

(** What the callback returns changes nothing but the record of it. *)
Lemma work_end_any_error sys cb1 cb2 sys1 :
  step sys (LWorkEnd cb1) = Some sys1 ->
  exists sys2, step sys (LWorkEnd cb2) = Some sys2 /\
               same_state sys1 sys2 /\
               master_calls (trace sys1) = master_calls (trace sys2).
Proof.
  intros Hs. unfold step in *. destruct (crashed sys) eqn:Hc; [done|].
  destruct (engine sys) eqn:He; try done.
  unfold work_callback, ret in *.
  destruct (isMaster (kettle sys)).
  - destruct (startInput (kettle sys)) as [i|]; [|done].
    destruct (Master i); injection Hs as <-; eexists; (split; [reflexivity|]);
      (split; [done|]); cbn [trace with_engine]; rewrite ?master_calls_app; done.
  - injection Hs as <-. eexists. split; [reflexivity|]. done.
Qed.

(** C2, as stated, fails: with a nil [Master] a cycle whose acquisition
    succeeds calls nothing, not once. *)
Lemma C2_counterexample :
  ~ (succeeded (lock_ret (MkCycle None None)) = true ->
     exists s' evs, work (started input_nil_master) (MkCycle None None) = Ok s' evs /\
                    master_calls evs = 1%nat).
Proof.
  intros H. destruct (H eq_refl) as (s' & evs & Hw & Hc).
  vm_compute in Hw. injection Hw as <- <-. vm_compute in Hc. discriminate.
Qed.

(** C2 (amended). In every work cycle the callback is called once when the
    acquisition succeeded and [Master] is not nil, and not at all
    otherwise; the error it returns is dropped: the kettle after any
    number of cycles (the master flag with it) and the number of calls in
    each cycle are the same whatever the callback returned. *)
Theorem C2_callback_once_per_master_cycle (s : Kettle) (i : StartInput) (os : list Cycle) :
  lock s <> None -> startInput s = Some i ->
  exists s' evss,
    cycles s os = Some (s', evss) /\
    map master_calls evss = map (expected_calls i) os /\
    (forall os' : list Cycle,
        map lock_ret os' = map lock_ret os ->
        exists evss', cycles s os' = Some (s', evss') /\
                      map master_calls evss' = map master_calls evss) /\
    (forall sys cb1 cb2 sys1,
        step sys (LWorkEnd cb1) = Some sys1 ->
        exists sys2, step sys (LWorkEnd cb2) = Some sys2 /\
                     same_state sys1 sys2 /\
                     master_calls (trace sys1) = master_calls (trace sys2)).
Proof.
  intros Hl Hi.
  destruct (cycles_ok os s i Hl Hi) as (evss & H & _ & Hc).
  eexists _, evss. split; [exact H|]. split; [exact Hc|].
  split; [|apply work_end_any_error].
  intros os' Hos.
  destruct (cycles_ok os' s i Hl Hi) as (evss' & H' & _ & Hc').
  exists evss'. split.
  - rewrite H'. do 2 f_equal.
    clear -Hos. revert s os Hos. induction os' as [|a r IH]; intros s [|b t] Hos; try done.
    cbn in Hos. injection Hos as E1 E2. cbn. rewrite E1. by apply IH.
  - rewrite Hc, Hc'.
    clear -Hos. revert os Hos. induction os' as [|a r IH]; intros [|b t] Hos; try done.
    cbn in Hos. injection Hos as E1 E2. cbn. unfold expected_calls at 1 3.
    rewrite E1. f_equal. by apply IH.
Qed.

Lemma C2_callback_witness :
  exists s' evss,
    cycles (started input_sample) [MkCycle None None; MkCycle lock_busy None; MkCycle None lock_busy]
      = Some (s', evss) /\
    map master_calls evss = [1; 0; 1]%nat.
Proof.
  destruct (C2_callback_once_per_master_cycle (started input_sample) input_sample
              [MkCycle None None; MkCycle lock_busy None; MkCycle None lock_busy])
    as (s' & evss & H & Hc & _).
  - vm_compute. discriminate.
  - reflexivity.
  - exists s', evss. split; [exact H | exact Hc].
Defined.

Lemma infof_no_exit s m : no_exit (infof s m).
Proof. unfold infof, no_exit. destruct (verbose s); repeat constructor. Qed.

Lemma infof_master_calls s m : master_calls (infof s m) = 0%nat.
Proof. unfold infof. by destruct (verbose s). Qed.

Lemma setMaster_no_exit s r k evs : setMaster s r = Ok k evs -> no_exit evs.
Proof.
  unfold setMaster. destruct (lock s); [|done].
  destruct r; intros [= _ <-]; (constructor; [done|]);
    (apply Forall_app; split; [apply infof_no_exit | repeat constructor]).
Qed.

Lemma work_callback_no_exit s cb k evs : work_callback s cb = Ok k evs -> no_exit evs.
Proof.
  unfold work_callback, ret. destruct (isMaster s); [|intros [= _ <-]; constructor].
  destruct (startInput s) as [i|]; [|done].
  destruct (Master i); intros [= _ <-]; repeat constructor.
Qed.

(** No run of the started kettle's goroutines ever calls [os.Exit]. *)
Lemma run_no_exit sys0 ls sys :
  no_exit (trace sys0) -> exec sys0 ls = Some sys -> no_exit (trace sys).
Proof.
  intros H0. revert ls sys. apply (exec_ind (fun _ s => no_exit (trace s))); [done|].
  intros ls s l s' _ IH Hs. unfold no_exit in *.
  destruct l; step_inv Hs; rewrite ?app_nil_r; try done;
    apply Forall_app; (split; [done|]);
    first [ eapply setMaster_no_exit; eassumption
          | eapply work_callback_no_exit; eassumption
          | apply infof_no_exit ].
Qed.

Lemma fatal_exits k m : ~ no_exit (fatal k m) /\ ~ no_exit (fatalf k m).
Proof.
  unfold no_exit, fatal, fatalf.
  split; intros H; apply Forall_app in H as [_ H]; by inversion H.
Qed.

(** C6. When [lock.Lock()] returns an error, [setMaster] stores 0 and
    returns; nothing of the failure reaches a caller (the work cycle
    returns too, without calling the callback), no goroutine panics on it,
    and no run of the election ever calls [os.Exit], which every call of
    [fatal] or [fatalf] does. *)
Theorem C6_lock_failure_is_not_fatal (s : Kettle) (err cb : option goerror) :
  lock s <> None -> err <> None ->
  (exists evs, setMaster s err = Ok (set_master 0 s) evs /\ no_exit evs) /\
  (exists evs, work s (MkCycle err cb) = Ok (set_master 0 s) evs /\
               no_exit evs /\ master_calls evs = 0%nat) /\
  (forall sys b, crashed sys = false -> engine sys = EInLock b -> kettle sys = s ->
      exists sys1 sys2,
        step sys (LLockReturn err) = Some sys1 /\
        crashed sys1 = false /\ panics sys1 = false /\ isMaster (kettle sys1) = false /\
        step sys1 (LWorkEnd cb) = Some sys2 /\
        engine sys2 = after_work b /\ crashed sys2 = false) /\
  (forall s0 i e sys0 ls sys',
      launch (Start s0 (Some i) e) = Some sys0 ->
      exec sys0 ls = Some sys' -> no_exit (trace sys')) /\
  (forall k m, ~ no_exit (fatal k m) /\ ~ no_exit (fatalf k m)).
Proof.
  intros Hl He. destruct err as [err|]; [clear He|done].
  destruct (setMaster_ok s (Some err) Hl) as (e1 & H1 & Hx1 & Hc1).
  change (flag_of (Some err)) with 0 in H1.
  assert (Hcb : work_callback (set_master 0 s) cb = Ok (set_master 0 s) []) by reflexivity.
  split; [by exists e1|]. split; [|split; [|split]].
  - exists (e1 ++ []). unfold work, bind. cbn [lock_ret master_ret]. rewrite H1, Hcb.
    split; [done|]. rewrite app_nil_r. done.
  - intros sys b Hc Hpc <-.
    eexists _, _. unfold step at 1. rewrite Hc, Hpc, H1.
    split; [reflexivity|]. cbn. unfold panics, step. cbn. rewrite Hc.
    change (work_callback (set_master 0 (kettle sys)) None) with (Ok (set_master 0 (kettle sys)) []).
    repeat split; done.
  - intros s0 i e sys0 ls sys' HL HE. rewrite launch_Start in HL. injection HL as <-.
    eapply run_no_exit; [|exact HE]. constructor.
  - apply fatal_exits.
Qed.

Lemma C6_lock_failure_witness :
  exists evs, work (started input_sample) (MkCycle lock_busy None)
                = Ok (set_master 0 (started input_sample)) evs /\
              no_exit evs /\ master_calls evs = 0%nat.
Proof.
  destruct (C6_lock_failure_is_not_fatal (started input_sample) lock_busy None)
    as (_ & H & _).
  - vm_compute. discriminate.
  - discriminate.
  - exact H.
Defined.

(** C10. With a nil [Master], a work cycle whose acquisition succeeds
    stores 1, calls nothing and returns without a panic; the cycles after
    it run as usual, and in the loop the engine goes back to its select
    (or, after the first invoke, on to spawn the loop). *)
Theorem C10_nil_callback_is_skipped (s : Kettle) (i : StartInput) (cb : option goerror)
    (os : list Cycle) :
  lock s <> None -> startInput s = Some i -> Master i = None ->
  (exists evs, work s (MkCycle None cb) = Ok (set_master 1 s) evs /\
               master_calls evs = 0%nat /\ no_exit evs) /\
  isMaster (set_master 1 s) = true /\
  (exists s' evss, cycles s (MkCycle None cb :: os) = Some (s', evss) /\
                   Forall (fun evs => master_calls evs = 0%nat) evss) /\
  (forall sys b, crashed sys = false -> engine sys = EInLock b -> kettle sys = s ->
      exists sys1 sys2,
        step sys (LLockReturn None) = Some sys1 /\
        isMaster (kettle sys1) = true /\ panics sys1 = false /\
        step sys1 (LWorkEnd cb) = Some sys2 /\
        engine sys2 = after_work b /\ crashed sys2 = false /\
        master_calls (trace sys2) = master_calls (trace sys)).
Proof.
  intros Hl Hi Hm.
  assert (Hexp : forall o, expected_calls i o = 0%nat).
  { intros o. unfold expected_calls. rewrite Hm, andb_comm. done. }
  split; [|split; [|split]].
  - destruct (work_ok s i (MkCycle None cb) Hl Hi) as (evs & H & Hx & Hc).
    exists evs. rewrite Hexp in Hc. done.
  - done.
  - destruct (cycles_ok (MkCycle None cb :: os) s i Hl Hi) as (evss & H & _ & Hc).
    eexists _, evss. split; [exact H|].
    clear H. revert Hc. generalize (MkCycle None cb :: os). intros l. revert evss.
    induction l as [|o r IH]; intros [|evs t] Hc; try done.
    cbn in Hc. injection Hc as E1 E2. rewrite Hexp in E1. constructor; [done | by apply IH].
  - intros sys b Hc Hpc <-.
    destruct (setMaster_ok (kettle sys) None Hl) as (e1 & H1 & Hx1 & Hc1).
    change (flag_of None) with 1 in H1.
    assert (Hcb : forall c, work_callback (set_master 1 (kettle sys)) c
                            = Ok (set_master 1 (kettle sys)) []).
    { intros c. unfold work_callback. cbn. rewrite Hi, Hm. done. }
    eexists _, _. unfold step at 1. rewrite Hc, Hpc, H1.
    split; [reflexivity|]. cbn. unfold panics, step. cbn. rewrite Hc, !Hcb.
    repeat split; try done. cbn [trace with_engine].
    rewrite app_nil_r, master_calls_app, Hc1. lia.
Qed.

Lemma C10_nil_callback_witness :
  exists evs, work (started input_nil_master) (MkCycle None lock_busy)
                = Ok (set_master 1 (started input_nil_master)) evs /\
              master_calls evs = 0%nat /\ no_exit evs.
Proof.
  destruct (C10_nil_callback_is_skipped (started input_nil_master) input_nil_master
              lock_busy []) as (H & _).
  - vm_compute. discriminate.
  - reflexivity.
  - reflexivity.
  - exact H.
Defined.

(** C4. [Start] on a nil input returns an error, spawns nothing and
    leaves the kettle as it was; this is its only check: on any other
    input it returns nil (and spawns its two goroutines). *)
Theorem C4_Start_validates_nil_only (s : Kettle) (e : StartEnv) :
  Start s None e = (s, [], Some (Errorf "input cannot be nil")) /\
  launch (Start s None e) = None /\
  (forall i, exists s', Start s (Some i) e = (s', [GoWatcher i; GoDoMaster], None)).
Proof.
  split; [reflexivity|]. split; [reflexivity|]. intros i. eexists. reflexivity.
Qed.

(** ** The shutdown handshake *)

Lemma setMaster_kettle s r k evs : setMaster s r = Ok k evs -> k = set_master (flag_of r) s.
Proof. unfold setMaster. destruct (lock s), r; by intros [= <- _]. Qed.

Ltac kettle_inv :=
  repeat match goal with
    | H : setMaster _ _ = Ok _ _ |- _ => apply setMaster_kettle in H; subst
    | H : work_callback _ _ = Ok _ _ |- _ => apply work_callback_kettle in H; subst
    end.

Lemma chan_send_inv {A} c (buf : list A) v b :
  chan_send c buf v = Some b ->
  exists ch, c = Some ch /\ (length buf < chan_cap ch)%nat /\ b = buf ++ [v].
Proof.
  unfold chan_send. destruct c as [ch|]; [|done].
  destruct (decide _); [|done]. intros [= <-]. by exists ch.
Qed.

Lemma chan_recv_inv {A} c (buf : list A) v r :
  chan_recv c buf = Some (v, r) -> buf = v :: r.
Proof. unfold chan_recv. destruct c, buf; try done. by intros [= <- <-]. Qed.

Lemma handshake_snoc ls l :
  handshake (ls ++ [l]) = handshake ls ++ (if is_handshake l then [l] else []).
Proof. unfold handshake. rewrite List.filter_app. done. Qed.

(** Each action keeps the invariant and brings the handshake one action
    along its order, or leaves it where it is. *)
(** Case analysis of an enabled action, on what [step] looks at. *)
Ltac step_cases H :=
  unfold step in H;
  repeat match type of H with
    | context [match ?x with _ => _ end] => destruct x eqn:?
    end;
  simplify_eq.

Lemma step_handshake s l s' :
  handshake_inv s -> step s l = Some s' ->
  handshake_inv s' /\
  take (hs_done s') handshake_order =
    take (hs_done s) handshake_order ++ (if is_handshake l then [l] else []).
Proof.
  intros (HQ & HD & HI) Hs. unfold step in Hs.
  destruct (watcher s) eqn:Hw, (engine s) eqn:He; step_cases Hs; kettle_inv;
    try done; try destruct HI as [HI1 HI2];
    repeat match goal with
      | H : chan_send _ _ _ = Some _ |- _ => apply chan_send_inv in H as (? & ? & ? & ->)
      | H : chan_recv _ _ = Some _ |- _ => apply chan_recv_inv in H
      end;
    destruct HQ as (cq & HQ & Hcq); destruct HD as (cd & HD & Hcd);
    rewrite ?HI1, ?HI2 in *; simplify_eq; cbn in *; try lia;
    unfold handshake_inv, hs_done; cbn; rewrite ?Hw, ?He, ?HI1, ?HI2; cbn;
    try match goal with first : bool |- _ => destruct first; cbn end;
    (split; [split; [by exists cq | split; [by exists cd | done]] | done]).
Qed.

(** In every run the handshake actions taken so far are the first
    [hs_done] of [handshake_order]. *)
Lemma run_handshake sys0 ls sys :
  handshake_inv sys0 -> hs_done sys0 = 0%nat ->
  exec sys0 ls = Some sys ->
  handshake_inv sys /\ handshake ls = take (hs_done sys) handshake_order.
Proof.
  intros HI H0. revert ls sys. apply exec_ind.
  - by rewrite H0.
  - intros ls s l s' _ [IH1 IH2] Hs.
    destruct (step_handshake _ _ _ IH1 Hs) as [H1 H2].
    split; [done|]. by rewrite handshake_snoc, IH2, H2.
Qed.

Lemma launch_handshake_inv s0 i e sys0 :
  launch (Start s0 (Some i) e) = Some sys0 ->
  handshake_inv sys0 /\ hs_done sys0 = 0%nat /\
  engine sys0 = ENewTicker /\ trace sys0 = [] /\ winput sys0 = i /\
  crashed sys0 = false /\
  lock (kettle sys0) = lock s0 /\ startInput (kettle sys0) = Some i /\
  tickTime (kettle sys0) = tickTime s0.
Proof.
  rewrite launch_Start. intros [= <-]. unfold handshake_inv. cbn.
  repeat split; try done; by eexists.
Qed.

(** Once the engine has returned it takes no further action. *)
Lemma returned_stays s l2 s' :
  engine s = EReturned -> exec s l2 = Some s' ->
  engine s' = EReturned /\ Forall (fun l => is_work l = false) l2.
Proof.
  revert s. induction l2 as [|l r IH]; intros s He H.
  - cbn in H. injection H as <-. by split.
  - cbn in H. destruct (step s l) as [s1|] eqn:Hs; [|done].
    assert (engine s1 = EReturned /\ is_work l = false) as [He1 Hl].
    { step_cases Hs; cbn; try done; congruence. }
    destruct (IH s1 He1 H) as [H1 H2]. split; [done | by constructor].
Qed.

Lemma live_inv_step s l s' : live_inv s -> step s l = Some s' -> live_inv s'.
Proof.
  intros (Hc & Hl & Hi & Hd & Ht) Hs. unfold live_inv.
  assert (Hp : panics s = false).
  { unfold panics. destruct (engine s); try done.
    - apply bool_decide_eq_false. lia.
    - destruct (setMaster_ok (kettle s) None Hl) as (? & -> & _). done.
    - destruct (startInput (kettle s)) as [i|] eqn:E; [|done].
      destruct (work_callback_ok (kettle s) i None E) as (? & -> & _). done. }
  step_cases Hs; kettle_inv; cbn; try done.
  repeat split; try done. congruence.
Qed.

Lemma rank_watcher s : (rank s < 40)%nat <-> watcher s <> WRecvQuit.
Proof. unfold rank. destruct (watcher s), (engine s); split; (done || lia). Qed.

(** Once [Quit] was received some action is enabled that brings the
    shutdown forward. *)
Lemma shutdown_progress s :
  handshake_inv s -> live_inv s -> (rank s < 40)%nat -> watcher s <> WReturned ->
  exists s', step s (next_label s) = Some s' /\ (rank s' < rank s)%nat.
Proof.
  intros (HQ & HD & HI) (Hc & Hl & Hi & Hd & Ht) Hr Hw.
  destruct HQ as (cq & HQ & Hcq); destruct HD as (cd & HD & Hcd).
  destruct (setMaster_ok (kettle s) None Hl) as (e1 & Hsm & _).
  destruct (startInput (kettle s)) as [i|] eqn:Ei; [|done].
  destruct (work_callback_ok (kettle s) i None Ei) as (e2 & Hwc & _).
  destruct (Done (winput s)) as [dch|] eqn:Ed; [|done].
  unfold rank in *. unfold step, next_label. rewrite Hc.
  destruct (watcher s) eqn:Ew, (engine s) eqn:Ee; try done; try lia;
    try destruct HI as [HI1 HI2];
    rewrite ?Ed, ?HQ, ?HD, ?HI1, ?HI2, ?Hsm, ?Hwc; cbn; rewrite ?Hcq, ?Hcd; cbn;
    try (destruct (decide (tick_duration (kettle s) <= 0)); [lia|]);
    try match goal with first : bool |- _ => destruct first end;
    eexists; (split; [reflexivity|]); cbn; rewrite ?Ew, ?Ee; lia.
Qed.

Lemma shutdown_completes n : forall s,
  (rank s <= n)%nat -> handshake_inv s -> live_inv s -> (rank s < 40)%nat ->
  exists ls' s', exec s ls' = Some s' /\ watcher s' = WReturned.
Proof.
  induction n as [|n IH]; intros s Hn HI HL Hr.
  - exists [], s. split; [done|]. unfold rank in Hn.
    destruct (watcher s); try done; lia.
  - assert (watcher s = WReturned \/ watcher s <> WReturned) as [Hw|Hw]
      by (destruct (watcher s); auto).
    { by exists [], s. }
    destruct (shutdown_progress s HI HL Hr Hw) as (s1 & Hs & Hlt).
    destruct (IH s1) as (ls' & s' & He & Hw').
    + lia.
    + by destruct (step_handshake _ _ _ HI Hs).
    + by eapply live_inv_step.
    + lia.
    + exists (next_label s :: ls'), s'. cbn. rewrite Hs. done.
Qed.

Lemma stopping_stays s l2 s' :
  stopping (engine s) = true -> exec s l2 = Some s' ->
  stopping (engine s') = true /\ Forall (fun l => is_work l = false) l2.
Proof.
  revert s. induction l2 as [|l r IH]; intros s He H.
  - cbn in H. injection H as <-. by split.
  - cbn in H. destruct (step s l) as [s1|] eqn:Hs; [|done].
    assert (stopping (engine s1) = true /\ is_work l = false) as [He1 Hl].
    { destruct (engine s) eqn:E; try done; step_cases Hs; cbn; rewrite ?E; done. }
    destruct (IH s1 He1 H) as [H1 H2]. split; [done | by constructor].
Qed.

Lemma run_live_inv sys0 ls sys :
  live_inv sys0 -> exec sys0 ls = Some sys -> live_inv sys.
Proof.
  intros H0. revert ls sys. apply (exec_ind (fun _ s => live_inv s)); [done|].
  intros ls s l s' _ IH Hs. by eapply live_inv_step.
Qed.

Lemma elem_of_handshake l ls :
  l ∈ ls -> is_handshake l = true -> l ∈ handshake ls.
Proof.
  intros H1 H2. apply list_elem_of_In, List.filter_In.
  split; [by apply list_elem_of_In | done].
Qed.

Lemma exec_split s l1 l l2 s' :
  exec s (l1 ++ l :: l2) = Some s' ->
  exists s1 s2, exec s l1 = Some s1 /\ step s1 l = Some s2 /\ exec s2 l2 = Some s'.
Proof.
  rewrite exec_app. destruct (exec s l1) as [s1|]; [|done]. cbn.
  destruct (step s1 l) as [s2|] eqn:E; [|done]. intros H. by exists s1, s2.
Qed.

(** C3. Once [Quit] is received the shutdown goes in one order: the send
    on [masterQuit], the engine's receipt of it, its acknowledgement on
    [masterDone], the watcher's receipt of that, and then the one send on
    [Done]; each of these happens at most once in a run. When [Done] is
    sent the engine loop has returned and no work cycle is in flight, and
    from the moment the engine takes the stop signal no work cycle runs.
    With a lock, a valid tick interval and a [Done] channel to send on,
    a shutdown that has begun can always be carried through, after which
    every action of the handshake has happened exactly once. *)
Theorem C3_shutdown_handshake (s0 : Kettle) (i : StartInput) (e : StartEnv)
    (sys0 : Sys) (ls : list Label) (sys : Sys) :
  launch (Start s0 (Some i) e) = Some sys0 ->
  exec sys0 ls = Some sys ->
  handshake ls `prefix_of` handshake_order /\
  (forall l1 l2, ls = l1 ++ LSendDone :: l2 ->
     exists s1, exec sys0 l1 = Some s1 /\
                stopped (engine s1) = true /\ in_flight (engine s1) = false /\
                handshake l1 = [LRecvQuit; LSendMasterQuit; LRecvMasterQuit;
                                LSendMasterDone; LRecvMasterDone] /\
                handshake l2 = [] /\
                Forall (fun l => is_work l = false) l2) /\
  (forall l1 l2, ls = l1 ++ LRecvMasterQuit :: l2 ->
     Forall (fun l => is_work l = false) l2) /\
  (lock s0 <> None -> 0 < tick_duration s0 -> Done i <> None -> LRecvQuit ∈ ls ->
     exists ls' sys', exec sys (ls') = Some sys' /\
                      handshake (ls ++ ls') = handshake_order).
Proof.
  intros HL HE.
  destruct (launch_handshake_inv _ _ _ _ HL)
    as (HI0 & Hd0 & He0 & _ & Hwi & Hcr & Hlk & Hsi & Htt).
  destruct (run_handshake _ _ _ HI0 Hd0 HE) as [HI Hh].
  split; [|split; [|split]].
  - rewrite Hh. apply prefix_take.
  - intros l1 l2 ->.
    destruct (exec_split _ _ _ _ _ HE) as (s1 & s2 & H1 & Hs & H2).
    destruct (run_handshake _ _ _ HI0 Hd0 H1) as [HI1 Hh1].
    assert (Hw1 : watcher s1 = WSendDone /\ watcher s2 = WReturned /\ engine s2 = engine s1).
    { step_cases Hs. done. }
    destruct Hw1 as (Hw1 & Hw2 & He2).
    assert (He1 : engine s1 = EReturned).
    { destruct HI1 as (_ & _ & HI1). rewrite Hw1 in HI1.
      destruct (engine s1); done. }
    exists s1. rewrite He1. split; [done|]. split; [done|]. split; [done|].
    split; [|split].
    + rewrite Hh1. unfold hs_done. by rewrite Hw1.
    + assert (Hh2 : handshake (l1 ++ LSendDone :: l2) = handshake_order ++ handshake l2).
      { unfold handshake. rewrite List.filter_app. cbn.
        fold (handshake l1). fold (handshake l2). rewrite Hh1.
        unfold hs_done. rewrite Hw1. done. }
      rewrite Hh in Hh2.
      assert (Hlen : (length (handshake_order ++ handshake l2) <= 6)%nat).
      { rewrite <- Hh2, length_take. cbn. lia. }
      rewrite length_app in Hlen. cbn in Hlen.
      destruct (handshake l2); [done | cbn in Hlen; lia].
    + rewrite <- He2 in He1. by apply (returned_stays _ _ _ He1 H2).
  - intros l1 l2 ->.
    destruct (exec_split _ _ _ _ _ HE) as (s1 & s2 & H1 & Hs & H2).
    assert (He2 : stopping (engine s2) = true) by (step_cases Hs; done).
    by apply (stopping_stays _ _ _ He2 H2).
  - intros Hl Ht Hd Hq.
    assert (HL0 : live_inv sys0).
    { unfold live_inv, tick_duration. rewrite Hcr, Hlk, Hsi, Hwi, Htt. done. }
    assert (HLs := run_live_inv _ _ _ HL0 HE).
    assert (Hr : (rank sys < 40)%nat).
    { apply rank_watcher. intros Hw.
      apply elem_of_handshake in Hq; [|done].
      rewrite Hh in Hq. unfold hs_done in Hq. rewrite Hw in Hq. by inversion Hq. }
    destruct (shutdown_completes (rank sys) sys (le_n _) HI HLs Hr) as (ls' & sys' & He' & Hw').
    exists ls', sys'. split; [done|].
    assert (HE' : exec sys0 (ls ++ ls') = Some sys') by (by rewrite exec_app, HE).
    destruct (run_handshake _ _ _ HI0 Hd0 HE') as [_ Hh'].
    rewrite Hh'. unfold hs_done. by rewrite Hw'.
Qed.

Lemma C3_shutdown_witness :
  handshake run_sample `prefix_of` handshake_order /\
  exists ls' sys', exec sys_sample ([LNewTicker; LRecvQuit] ++ ls') = Some sys' /\
                   handshake ([LNewTicker; LRecvQuit] ++ ls') = handshake_order.
Proof.
  split.
  - destruct (exec sys_sample run_sample) as [sys|] eqn:E; [|vm_compute in E; discriminate].
    exact (proj1 (C3_shutdown_handshake kettle_sample input_sample start_env
                    sys_sample run_sample sys eq_refl E)).
  - destruct (exec sys_sample [LNewTicker; LRecvQuit]) as [sys|] eqn:E;
      [|vm_compute in E; discriminate].
    destruct (C3_shutdown_handshake kettle_sample input_sample start_env
                sys_sample [LNewTicker; LRecvQuit] sys eq_refl E) as (_ & _ & _ & H).
    destruct H as (ls' & sys' & H1 & H2).
    + discriminate.
    + vm_compute. reflexivity.
    + discriminate.
    + apply list_elem_of_In. right. left. reflexivity.
    + exists ls', sys'. split; [|exact H2]. rewrite exec_app, E. exact H1.
Defined.

(** ** The first invoke of [work] *)

Lemma seen_snoc ls l :
  seen (ls ++ [l]) =
  MkSeen (seen_ticker (seen ls) || is_new_ticker l) (seen_begin (seen ls) || is_work_begin l)
         (seen_lock (seen ls) || is_lock_return l) (seen_end (seen ls) || is_work_end l)
         (seen_spawn (seen ls) || is_spawn_loop l) (seen_recv (seen ls) || is_loop_recv l).
Proof. unfold seen. cbn. rewrite !existsb_app. cbn. by rewrite !orb_false_r. Qed.

(** What a run has seen of the engine, by where the engine stands. *)
Lemma run_engine_seen sys0 ls sys :
  engine sys0 = ENewTicker -> exec sys0 ls = Some sys ->
  engine_seen (engine sys) (seen ls).
Proof.
  intros H0. revert ls sys. apply (exec_ind (fun ls s => engine_seen (engine s) (seen ls))).
  - by rewrite H0.
  - intros ls s l s' _ IH Hs. rewrite seen_snoc.
    destruct (seen ls) as [t b k w p r]. cbn [seen_ticker seen_begin seen_lock seen_end seen_spawn seen_recv].
    unfold step in Hs.
    destruct (engine s) eqn:He; step_cases Hs; cbn; rewrite ?He; cbn;
      repeat match goal with first : bool |- _ => destruct first; cbn in * end;
      simplify_eq; cbn; rewrite ?orb_true_r, ?orb_false_r; try done;
      intuition congruence.
Qed.

Lemma existsb_elem_of (p : Label -> bool) ls :
  existsb p ls = true <-> exists l, l ∈ ls /\ p l = true.
Proof.
  rewrite List.existsb_exists. split; intros (l & H1 & H2); exists l; split; try done;
    by apply list_elem_of_In.
Qed.

(** C5, as stated, fails: the ticker is armed by [time.NewTicker] on the
    first line of [doMaster], before [work] is first called. *)
Lemma C5_counterexample :
  exists sys, exec sys_sample [LNewTicker] = Some sys /\
    ~ (forall l1 l2, [LNewTicker] = l1 ++ LNewTicker :: l2 -> LWorkBegin ∈ l1).
Proof.
  eexists. split; [vm_compute; reflexivity|].
  intros H. specialize (H [] [] eq_refl). by inversion H.
Qed.

(** C5 (amended). [doMaster] first creates the ticker, then makes the
    first invoke of [work], and only when that has returned spawns the
    loop that receives ticks and the stop signal: every acquisition
    attempt comes after the ticker was created; the engine receives a tick
    or the stop signal only after the first cycle is over (its
    [lock.Lock()] returned, the cycle ended, the loop spawned), so neither
    preempts it; and the first attempt waits for no tick: it is enabled
    right after the ticker is created. *)
Theorem C5_first_attempt_before_loop (s0 : Kettle) (i : StartInput) (e : StartEnv)
    (sys0 : Sys) (ls : list Label) (sys : Sys) :
  launch (Start s0 (Some i) e) = Some sys0 ->
  exec sys0 ls = Some sys ->
  (forall l1 l2, ls = l1 ++ LWorkBegin :: l2 -> LNewTicker ∈ l1) /\
  (forall l1 l l2, ls = l1 ++ l :: l2 -> is_loop_recv l = true ->
     LSpawnLoop ∈ l1 /\ exists r cb, LLockReturn r ∈ l1 /\ LWorkEnd cb ∈ l1) /\
  (forall l1 l2, ls = l1 ++ LWorkBegin :: l2 -> LWorkBegin ∉ l1 ->
     forall l, l ∈ l1 -> is_loop_recv l = false) /\
  (0 < tick_duration s0 ->
     exists sys2, exec sys0 [LNewTicker; LWorkBegin] = Some sys2 /\
                  engine sys2 = EInLock true).
Proof.
  intros HL HE.
  destruct (launch_handshake_inv _ _ _ _ HL) as (_ & _ & He0 & _ & _ & Hcr & _ & _ & Htt).
  split; [|split; [|split]].
  - intros l1 l2 ->.
    destruct (exec_split _ _ _ _ _ HE) as (s1 & s2 & H1 & Hs & _).
    pose proof (run_engine_seen _ _ _ He0 H1) as Hseen.
    assert (Ht : existsb is_new_ticker l1 = true).
    { destruct (seen l1) as [t b k w p r] eqn:Es.
      assert (t = true); [|unfold seen in Es; congruence].
      step_cases Hs.
      cbn in Hseen. destruct first; [congruence | by destruct Hseen]. }
    apply existsb_elem_of in Ht as ([] & Hin & Hp); done.
  - intros l1 l l2 -> Hl.
    destruct (exec_split _ _ _ _ _ HE) as (s1 & s2 & H1 & Hs & _).
    pose proof (run_engine_seen _ _ _ He0 H1) as Hseen.
    assert (He1 : engine s1 = ESelect) by (destruct l; try done; step_cases Hs; done).
    rewrite He1 in Hseen. destruct Hseen as (_ & _ & Hk & Hw & Hp). cbn in Hk, Hw, Hp.
    apply existsb_elem_of in Hk as ([] & Hk1 & Hk2); try done.
    apply existsb_elem_of in Hw as ([] & Hw1 & Hw2); try done.
    apply existsb_elem_of in Hp as ([] & Hp1 & Hp2); try done.
    split; [done|]. eauto.
  - intros l1 l2 -> Hnb l Hin.
    destruct (exec_split _ _ _ _ _ HE) as (s1 & s2 & H1 & Hs & _).
    pose proof (run_engine_seen _ _ _ He0 H1) as Hseen.
    destruct (is_loop_recv l) eqn:El; [exfalso|done].
    assert (Hb : existsb is_work_begin l1 = false).
    { apply not_true_is_false. intros Hb.
      apply existsb_elem_of in Hb as ([] & Hb1 & Hb2); done. }
    assert (Hr : existsb is_loop_recv l1 = true) by (apply existsb_elem_of; eauto).
    step_cases Hs.
    unfold seen in Hseen. rewrite Hb, Hr in Hseen. cbn in Hseen.
    destruct first; [congruence | by destruct Hseen as (_ & ? & _)].
  - intros Ht. cbn. unfold step at 1. rewrite Hcr, He0.
    assert (Ht' : tick_duration (kettle sys0) = tick_duration s0).
    { unfold tick_duration. by rewrite Htt. }
    rewrite Ht'. destruct (decide (tick_duration s0 <= 0)); [lia|].
    unfold step. cbn. rewrite Hcr. eexists. split; reflexivity.
Qed.

Lemma C5_first_attempt_witness :
  LNewTicker ∈ [LNewTicker] /\
  exists sys2, exec sys_sample [LNewTicker; LWorkBegin] = Some sys2 /\
               engine sys2 = EInLock true.
Proof.
  destruct (exec sys_sample run_sample) as [sys|] eqn:E; [|vm_compute in E; discriminate].
  destruct (C5_first_attempt_before_loop kettle_sample input_sample start_env
              sys_sample run_sample sys eq_refl E) as (H1 & _ & _ & H4).
  split.
  - apply (H1 [LNewTicker] (tail (tail run_sample)) eq_refl).
  - apply H4. vm_compute. reflexivity.
Defined.

(** * Further properties of the code *)

(** ** [NewRedisPool] and [New] *)

Lemma NewRedisPool_cases env :
  (exists p, NewRedisPool env = (Some p, None)) \/
  (exists err, NewRedisPool env = (None, Some err)).
Proof.
  unfold NewRedisPool.
  destruct (decide (Getenv env "REDIS_HOST" = "")); [right; by eexists|].
  destruct (decide (Getenv env "REDIS_TIMEOUT_SECONDS" <> "")); [|left; by eexists].
  destruct (Atoi _) as [z [err|]]; [right | left]; by eexists.
Qed.

(** X1. [New] returns a kettle or an error, never both and never neither.
    The kettle it returns has a lock, is not master and is not started;
    the error it returns is the one of [NewRedisPool], and comes only
    when the options left no locker. *)
Theorem New_kettle_or_error (opts : list KettleOption) (env : gmap string string) :
  (exists k, New opts env = (Some k, None) /\
             lock k <> None /\ isMaster k = false /\ hostname k = "" /\
             startInput k = None /\ masterQuit k = None /\ masterDone k = None) \/
  (exists err, New opts env = (None, Some err) /\
               last_lock opts None = None /\
               NewRedisPool env = (None, Some err)).
Proof.
  destruct (apply_opts_fields opts Kettle_literal)
    as (_ & _ & Hl & _ & _ & Hm & Hh & Hs & Hq & Hd).
  cbn in Hl, Hm, Hh, Hs, Hq, Hd.
  destruct (last_lock opts None) as [dl|] eqn:E.
  - left. eexists. split; [by apply (New_custom _ _ dl)|].
    unfold isMaster. rewrite Hl, Hm, Hh, Hs, Hq, Hd. done.
  - rewrite (New_default _ _ E).
    destruct (NewRedisPool_cases env) as [[p ->]|[err ->]].
    + left. eexists. split; [reflexivity|]. unfold isMaster. cbn.
      rewrite Hm, Hh, Hs, Hq, Hd. done.
    + right. by exists err.
Qed.

(** X2. [New] succeeds exactly when the options leave a locker or
    [NewRedisPool] succeeds. *)
Theorem New_succeeds_iff (opts : list KettleOption) (env : gmap string string) :
  (exists k, New opts env = (Some k, None)) <->
  (last_lock opts None <> None \/ exists p, NewRedisPool env = (Some p, None)).
Proof.
  destruct (last_lock opts None) as [dl|] eqn:E.
  - rewrite (New_custom _ _ dl E). split; [by left | by eexists].
  - rewrite (New_default _ _ E). split.
    + intros [k Hk].
      destruct (NewRedisPool_cases env) as [[p H]|[err H]]; [right; by exists p|].
      rewrite H in Hk. done.
    + intros [H|[p H]]; [done|]. rewrite H. by eexists.
Qed.

(** X3. [NewRedisPool] succeeds exactly when [REDIS_HOST] is set to a
    non-empty value and [REDIS_TIMEOUT_SECONDS] is unset, empty or
    accepted by [strconv.Atoi]; [REDIS_PASSWORD] is never checked. The pool
    dials the host with the password first (when there is one) and the
    connect timeout second (when there is one), has 3 idle and 4 active
    connections at most, waits, and idles out after 240 seconds. *)
Theorem NewRedisPool_succeeds_iff (env : gmap string string) :
  let host := Getenv env "REDIS_HOST" in
  let pw := Getenv env "REDIS_PASSWORD" in
  let tm := Getenv env "REDIS_TIMEOUT_SECONDS" in
  ((exists p, NewRedisPool env = (Some p, None)) <->
   (host <> "" /\ (tm = "" \/ (Atoi tm).2 = None))) /\
  (forall p, NewRedisPool env = (Some p, None) ->
     MaxIdle p = 3 /\ MaxActive p = 4 /\ Wait p = true /\
     IdleTimeout p = 240 * 1000000000 /\
     Dial_addr p = host /\
     Dial_opts p =
       (if decide (pw = "") then [] else [DialPassword pw]) ++
       (if decide (tm = "") then []
        else [DialConnectTimeout (Duration_mul (Atoi tm).1 time_Second)])).
Proof.
  cbv zeta. unfold NewRedisPool.
  destruct (decide (Getenv env "REDIS_HOST" = "")) as [Hh|Hh].
  { split; [|done]. split; [by intros [p H] | by intros [H _]]. }
  destruct (decide (Getenv env "REDIS_TIMEOUT_SECONDS" <> "")) as [Ht|Ht].
  - destruct (Atoi (Getenv env "REDIS_TIMEOUT_SECONDS")) as [z [err|]] eqn:Ea; cbn.
    + split; [|done]. split; [by intros [p H] | by intros (_ & [H|H])].
    + split; [split; [auto | by eexists]|].
      intros p [= <-]. cbn.
      destruct (decide (Getenv env "REDIS_TIMEOUT_SECONDS" = "")); [done|].
      destruct (decide (Getenv env "REDIS_PASSWORD" <> "")),
               (decide (Getenv env "REDIS_PASSWORD" = "")); done.
  - apply dec_stable in Ht.
    split; [split; [auto | by eexists]|].
    intros p [= <-]. cbn.
    destruct (decide (Getenv env "REDIS_TIMEOUT_SECONDS" = "")); [|done].
    destruct (decide (Getenv env "REDIS_PASSWORD" <> "")),
             (decide (Getenv env "REDIS_PASSWORD" = "")); rewrite ?app_nil_r; done.
Qed.

Lemma NewRedisPool_succeeds_witness :
  exists p, NewRedisPool env_full = (Some p, None) /\
            Dial_addr p = "localhost:6379" /\
            Dial_opts p = [DialPassword "secret"; DialConnectTimeout 5000000000].
Proof.
  destruct (NewRedisPool_succeeds_iff env_full) as [[_ H1] H2].
  destruct H1 as [p Hp].
  - split; [vm_compute; discriminate | right; vm_compute; reflexivity].
  - exists p. split; [exact Hp|].
    destruct (H2 p Hp) as (_ & _ & _ & _ & Ha & Ho).
    split; [exact Ha | exact Ho].
Defined.

Lemma Apply_commute a b s :
  field_of a <> field_of b -> Apply a (Apply b s) = Apply b (Apply a s).
Proof. destruct a, b; cbn; done. Qed.

Lemma Apply_twice a s : Apply a (Apply a s) = Apply a s.
Proof. by destruct a. Qed.

Lemma New_apply_opts o o' env :
  apply_opts o Kettle_literal = apply_opts o' Kettle_literal -> New o env = New o' env.
Proof. unfold New. by intros ->. Qed.

(** X4. Two neighbouring options of different classes can be given in
    either order, and an option given twice in a row counts once: [New]
    returns the same. *)
Theorem New_options_commute (a b : KettleOption) (o1 o2 : list KettleOption)
    (env : gmap string string) :
  field_of a <> field_of b ->
  New (o1 ++ a :: b :: o2) env = New (o1 ++ b :: a :: o2) env /\
  New (o1 ++ a :: a :: o2) env = New (o1 ++ a :: o2) env.
Proof.
  intros Hab. split; apply New_apply_opts; unfold apply_opts;
    rewrite !foldl_app; cbn [foldl].
  - by rewrite (Apply_commute b a) by done.
  - by rewrite Apply_twice.
Qed.

Lemma New_options_commute_witness :
  New [WithName "a"; WithTickTime 5; WithVerbose true] env_host =
  New [WithName "a"; WithVerbose true; WithTickTime 5] env_host.
Proof.
  apply (New_options_commute (WithTickTime 5) (WithVerbose true) [WithName "a"] [] env_host).
  discriminate.
Defined.

(** X5. Of a kettle that [New] returned, [Pool()] is nil exactly when the
    options left a locker; otherwise it is the pool [NewRedisPool] gave,
    the one the default lock runs on. [Name()] and [IsVerbose()] give what
    the last option of their class set, or "kettle" and false. *)
Theorem getters_after_New (opts : list KettleOption) (env : gmap string string) (k : Kettle) :
  New opts env = (Some k, None) ->
  Name k = last_name opts "kettle" /\
  IsVerbose k = last_verbose opts false /\
  (Kettle_Pool k = None <-> last_lock opts None <> None) /\
  (forall p, Kettle_Pool k = Some p ->
     NewRedisPool env = (Some p, None) /\
     lock k = Some (RedsyncMutex (Name k +:+ "-distlocker")
                                 (Duration_mul time_Second (tickTime k)) [Some p])).
Proof.
  intros HN. unfold Name, IsVerbose, Kettle_Pool.
  destruct (apply_opts_fields opts Kettle_literal) as (Hn & Hv & Hl & Ht & Hp & _).
  cbn in Hn, Hv, Hl, Ht, Hp.
  destruct (last_lock opts None) as [dl|] eqn:E.
  - rewrite (New_custom _ _ _ E) in HN. injection HN as <-.
    rewrite Hn, Hv, Hp. repeat split; try done.
  - rewrite (New_default _ _ E) in HN.
    destruct (NewRedisPool_cases env) as [[p Hr]|[err Hr]]; rewrite Hr in HN; [|done].
    injection HN as <-. cbn. rewrite Hn, Hv, Ht.
    repeat split; try done. all: congruence.
Qed.

Lemma getters_after_New_witness :
  Name kettle_sample = "b" /\ Kettle_Pool kettle_sample = Some pool_host /\
  Kettle_Pool kettle_custom = None.
Proof.
  destruct (getters_after_New opts_sample env_host kettle_sample eq_refl) as (Hn & _ & _ & _).
  destruct (getters_after_New opts_custom ∅ kettle_custom eq_refl) as (_ & _ & [_ Hp] & _).
  split; [exact Hn|]. split; [reflexivity|]. apply Hp. discriminate.
Defined.

(** ** What the goroutines leave alone *)

Lemma count_snoc p ls l : count p (ls ++ [l]) = (count p ls + Nat.b2n (p l))%nat.
Proof. unfold count. rewrite List.filter_app, length_app. cbn. by destruct (p l). Qed.

Lemma set_master_self k : set_master (master k) k = k.
Proof. by destruct k. Qed.

Lemma run_kettle sys0 ls sys :
  exec sys0 ls = Some sys ->
  kettle sys = set_master (master (kettle sys)) (kettle sys0) /\ winput sys = winput sys0.
Proof.
  revert ls sys. apply exec_ind.
  - by rewrite set_master_self.
  - intros ls s l s' _ [IH1 IH2] Hs.
    step_cases Hs; kettle_inv; cbn; try done.
    all: split; [|done]; by rewrite IH1.
Qed.

(** X6. The goroutines of a started kettle write to one field of it
    only, the master flag: its name, verbosity, pool, lock, tick time,
    start input and channels stay as [Start] left them, and so does its
    identity, the host name followed by "__" and the token. *)
Theorem run_changes_master_only (s0 : Kettle) (i : StartInput) (e : StartEnv)
    (sys0 : Sys) (ls : list Label) (sys : Sys) :
  launch (Start s0 (Some i) e) = Some sys0 ->
  exec sys0 ls = Some sys ->
  kettle sys = set_master (master (kettle sys)) (kettle sys0) /\
  hostname (kettle sys) = os_Hostname e +:+ "__" +:+ uuid_NewV4 e /\
  Name (kettle sys) = Name s0 /\ IsVerbose (kettle sys) = IsVerbose s0 /\
  Kettle_Pool (kettle sys) = Kettle_Pool s0 /\ lock (kettle sys) = lock s0 /\
  tickTime (kettle sys) = tickTime s0 /\
  startInput (kettle sys) = Some i /\
  masterQuit (kettle sys) = Some (MkChan (fresh_chan e) 1) /\
  masterDone (kettle sys) = Some (MkChan (S (fresh_chan e)) 1).
Proof.
  intros HL HE. rewrite launch_Start in HL. injection HL as <-.
  destruct (run_kettle _ _ _ HE) as [Hk _]. split; [exact Hk|].
  unfold Name, IsVerbose, Kettle_Pool. rewrite Hk. cbn. done.
Qed.

Lemma run_changes_master_only_witness :
  exists sys, exec sys_sample run_sample = Some sys /\
              hostname (kettle sys) = "node1__6ba7b810" /\ Name (kettle sys) = "b".
Proof.
  destruct (exec sys_sample run_sample) as [sys|] eqn:E; [|vm_compute in E; discriminate].
  exists sys. split; [reflexivity|].
  destruct (run_changes_master_only kettle_sample input_sample start_env
              sys_sample run_sample sys eq_refl E) as (_ & Hh & Hn & _).
  split; [exact Hh | exact Hn].
Defined.

(** ** Logging *)

Lemma log_lines_app e1 e2 : log_lines (e1 ++ e2) = (log_lines e1 + log_lines e2)%nat.
Proof. unfold log_lines. by rewrite List.filter_app, length_app. Qed.

Lemma log_lines_infof s m : log_lines (infof s m) = Nat.b2n (verbose s).
Proof. unfold infof. by destruct (verbose s). Qed.

Lemma setMaster_log_lines s r k evs :
  setMaster s r = Ok k evs -> log_lines evs = Nat.b2n (verbose s).
Proof.
  unfold setMaster. destruct (lock s); [|done].
  destruct r; intros [= _ <-]; unfold infof; by destruct (verbose s).
Qed.

Lemma work_callback_log_lines s cb k evs :
  work_callback s cb = Ok k evs -> log_lines evs = 0%nat.
Proof.
  unfold work_callback, ret. destruct (isMaster s); [|by intros [= _ <-]].
  destruct (startInput s) as [i|]; [|done]. destruct (Master i); by intros [= _ <-].
Qed.

Lemma step_log_lines s l s' :
  step s l = Some s' ->
  log_lines (trace s') =
    (log_lines (trace s) +
     (if verbose (kettle s)
      then Nat.b2n (is_lock_return l) + Nat.b2n (is_recv_quit l) + Nat.b2n (is_recv_master_done l)
      else 0))%nat.
Proof.
  intros Hs. step_cases Hs; cbn [trace with_engine with_watcher with_ticker with_bufQuit
                                  with_bufDone crash kettle];
    rewrite ?log_lines_app, ?log_lines_infof;
    repeat match goal with
      | H : setMaster _ _ = Ok _ _ |- _ => apply setMaster_log_lines in H; rewrite H
      | H : work_callback _ _ = Ok _ _ |- _ => apply work_callback_log_lines in H; rewrite H
      end;
    cbn; destruct (verbose (kettle _)); cbn; lia.
Qed.

(** X7. A kettle that is not verbose logs nothing, whatever happens; a
    verbose one logs one line for each acquisition attempt that returns
    (the role it took), one when the quit request is received and one when
    the engine has acknowledged, and nothing else. [fatal] and [fatalf]
    exit with status 1 whether verbose or not. *)
Theorem run_log_lines (s0 : Kettle) (i : StartInput) (e : StartEnv)
    (sys0 : Sys) (ls : list Label) (sys : Sys) :
  launch (Start s0 (Some i) e) = Some sys0 ->
  exec sys0 ls = Some sys ->
  log_lines (trace sys) =
    (if IsVerbose s0
     then count is_lock_return ls + count is_recv_quit ls + count is_recv_master_done ls
     else 0)%nat /\
  (forall m, List.filter is_exit (fatal s0 m) = [EvExit 1] /\
             List.filter is_exit (fatalf s0 m) = [EvExit 1]).
Proof.
  intros HL HE. split.
  - rewrite launch_Start in HL. injection HL as <-. revert ls sys HE.
    apply exec_ind; [by destruct (IsVerbose s0)|].
    intros ls s l s' HE IH Hs.
    rewrite (step_log_lines _ _ _ Hs), IH, !count_snoc.
    destruct (run_kettle _ _ _ HE) as [Hk _].
    assert (Hv : verbose (kettle s) = IsVerbose s0) by (rewrite Hk; done).
    rewrite Hv. destruct (IsVerbose s0); lia.
  - intros m. unfold fatal, fatalf, error, errorf.
    destruct (verbose s0); done.
Qed.

Lemma run_log_lines_witness :
  exists sys, exec sys_sample run_sample = Some sys /\ log_lines (trace sys) = 0%nat.
Proof.
  destruct (exec sys_sample run_sample) as [sys|] eqn:E; [|vm_compute in E; discriminate].
  exists sys. split; [reflexivity|].
  exact (proj1 (run_log_lines kettle_sample input_sample start_env
                  sys_sample run_sample sys eq_refl E)).
Defined.

(** ** The master flag in the runs *)

Lemma New_master opts env k : New opts env = (Some k, None) -> master k = 0.
Proof.
  intros HN.
  destruct (apply_opts_fields opts Kettle_literal) as (_ & _ & _ & _ & _ & Hm & _).
  cbn in Hm.
  destruct (last_lock opts None) as [dl|] eqn:E.
  - rewrite (New_custom _ _ _ E) in HN. by injection HN as <-.
  - rewrite (New_default _ _ E) in HN.
    destruct (NewRedisPool env) as [p [err|]]; [done|]. by injection HN as <-.
Qed.

(** X8. A kettle from [New], once started, reports master only after an
    acquisition attempt succeeded: at every moment of every run
    [isMaster] is the result of the last attempt that returned, and false
    while none has. Nothing else resets it: it keeps that value after the
    engine has stopped. *)
Theorem run_isMaster (opts : list KettleOption) (env : gmap string string) (k : Kettle)
    (i : StartInput) (e : StartEnv) (sys0 : Sys) (ls : list Label) (sys : Sys) :
  New opts env = (Some k, None) ->
  launch (Start k (Some i) e) = Some sys0 ->
  exec sys0 ls = Some sys ->
  isMaster (kettle sys) =
    match last_lock_ret ls None with
    | Some r => succeeded r
    | None => false
    end /\
  (isMaster (kettle sys) = true -> LLockReturn None ∈ ls).
Proof.
  intros HN HL HE.
  pose proof (New_master _ _ _ HN) as Hm0.
  rewrite launch_Start in HL. injection HL as <-.
  pose proof HE as Hf. apply run_master_flag in Hf as [Hf _]; [|reflexivity]. cbn in Hf.
  assert (Hval : isMaster (kettle sys) =
                 match last_lock_ret ls None with Some r => succeeded r | None => false end).
  { unfold isMaster. rewrite Hf. destruct (last_lock_ret ls None) as [[r|]|]; try done.
    rewrite Hm0. done. }
  split; [exact Hval|].
  rewrite Hval. clear.
  assert (G : forall d, match last_lock_ret ls d with Some r => succeeded r | None => false end = true ->
               LLockReturn None ∈ ls \/ d = Some None).
  { induction ls as [|l r IH]; intros d Hd.
    - right. cbn in Hd. by destruct d as [[?|]|].
    - destruct l; cbn in Hd;
        try (destruct (IH d Hd) as [?|?]; [left; by right | by right]).
      destruct (IH _ Hd) as [?|[= ->]]; left; [by right | by left]. }
  intros H. by destruct (G None H).
Qed.

Lemma run_isMaster_witness :
  exists sys, exec sys_sample [LNewTicker; LWorkBegin; LLockReturn None] = Some sys /\
              isMaster (kettle sys) = true.
Proof.
  destruct (exec sys_sample [LNewTicker; LWorkBegin; LLockReturn None]) as [sys|] eqn:E;
    [|vm_compute in E; discriminate].
  exists sys. split; [reflexivity|].
  exact (proj1 (run_isMaster opts_sample env_host kettle_sample input_sample start_env
                  sys_sample _ sys eq_refl eq_refl E)).
Defined.

(** ** The callback in the runs *)

Lemma call_of_infof i s m : Forall (call_of i) (infof s m).
Proof. unfold infof. destruct (verbose s); repeat constructor. Qed.

Lemma setMaster_calls s r k evs :
  setMaster s r = Ok k evs ->
  master_calls evs = 0%nat /\ forall i, Forall (call_of i) evs.
Proof.
  unfold setMaster. destruct (lock s); [|done].
  destruct r; intros [= _ <-]; (split; [unfold master_calls, infof; by destruct (verbose s)|]);
    intros; (constructor; [done|]);
    (apply Forall_app; split; [apply call_of_infof | repeat constructor]).
Qed.

Lemma work_callback_calls s i cb k evs :
  startInput s = Some i ->
  work_callback s cb = Ok k evs ->
  Forall (call_of i) evs /\
  master_calls evs = (if isMaster s && bool_decide (Master i <> None) then 1 else 0)%nat.
Proof.
  intros Hi. unfold work_callback, ret. rewrite Hi.
  destruct (isMaster s); [|intros [= _ <-]; by split].
  destruct (Master i) as [f|] eqn:Ef; intros [= _ <-]; (split; [|done]);
    repeat constructor; done.
Qed.

Lemma run_callback_inv i sys0 ls sys :
  trace sys0 = [] -> engine sys0 = ENewTicker -> startInput (kettle sys0) = Some i ->
  exec sys0 ls = Some sys ->
  Forall (call_of i) (trace sys) /\
  (master_calls (trace sys) + pending_call i sys)%nat =
    (if bool_decide (Master i <> None) then count is_lock_success ls else 0%nat).
Proof.
  intros Ht He Hi. revert ls sys. apply exec_ind.
  - rewrite Ht. unfold pending_call. rewrite He. split; [constructor|].
    by destruct (bool_decide _).
  - intros ls s l s' HE [IH1 IH2] Hs. rewrite count_snoc.
    destruct (run_kettle _ _ _ HE) as [Hk _].
    assert (Hsi : startInput (kettle s) = Some i) by (rewrite Hk; done).
    unfold pending_call in *. unfold step in Hs.
    destruct (engine s) eqn:Ee; step_cases Hs;
      cbn [trace with_engine with_watcher with_ticker with_bufQuit with_bufDone crash
           kettle engine is_lock_success Nat.b2n];
      rewrite ?Ee, ?app_nil_r, ?Nat.add_0_r; rewrite ?Nat.add_0_r in IH2.
    all: try (split; [exact IH1 | exact IH2]).
    all: try (split; [apply Forall_app; split; [exact IH1 | apply call_of_infof]
                     | rewrite master_calls_app, infof_master_calls; lia]).
    all: try match goal with H : setMaster _ _ = Ok _ _ |- _ =>
        pose proof (setMaster_kettle _ _ _ _ H); subst;
        destruct (setMaster_calls _ _ _ _ H) as (Hc & Hf);
        (split; [apply Forall_app; split; [exact IH1 | apply Hf]|]);
        rewrite master_calls_app, Hc, isMaster_flag_of;
        destruct r, (bool_decide (Master i <> None)); cbn in *; lia
      end.
    all: match goal with H : work_callback _ _ = Ok _ _ |- _ =>
        pose proof (work_callback_kettle _ _ _ _ H); subst;
        destruct (work_callback_calls _ _ _ _ _ Hsi H) as (Hf & Hc);
        (split; [apply Forall_app; split; [exact IH1 | exact Hf]|]);
        rewrite master_calls_app, Hc;
        destruct first; cbn; lia
      end.
Qed.

(** X9. In the runs of a started kettle every call of the callback is a
    call of [in.Master] with [in.MasterCtx]; there are never more calls
    than acquisition attempts that succeeded; with a [Master] set there is
    exactly one call for each of them once the cycle is over, and with
    none there is no call at all. *)
Theorem run_callback_calls (s0 : Kettle) (i : StartInput) (e : StartEnv)
    (sys0 : Sys) (ls : list Label) (sys : Sys) :
  launch (Start s0 (Some i) e) = Some sys0 ->
  exec sys0 ls = Some sys ->
  Forall (call_of i) (trace sys) /\
  (master_calls (trace sys) <= count is_lock_success ls)%nat /\
  (Master i <> None -> (forall b, engine sys <> EInCallback b) ->
     master_calls (trace sys) = count is_lock_success ls) /\
  (Master i = None -> master_calls (trace sys) = 0%nat).
Proof.
  intros HL HE. rewrite launch_Start in HL. injection HL as <-.
  pose proof HE as HI. apply (run_callback_inv i) in HI as [H1 H2]; [|reflexivity..].
  split; [exact H1|]. split; [|split].
  - destruct (bool_decide (Master i <> None)); lia.
  - intros Hm Hb. rewrite bool_decide_true in H2 by done.
    unfold pending_call in H2.
    destruct (engine sys) eqn:Ee; try lia. by destruct (Hb first).
  - intros Hm. rewrite bool_decide_false in H2 by (rewrite Hm; auto). lia.
Qed.

Lemma run_callback_calls_witness :
  exists sys, exec sys_sample run_sample = Some sys /\
              master_calls (trace sys) = 1%nat.
Proof.
  destruct (exec sys_sample run_sample) as [sys|] eqn:E; [|vm_compute in E; discriminate].
  exists sys. split; [reflexivity|].
  destruct (run_callback_calls kettle_sample input_sample start_env
              sys_sample run_sample sys eq_refl E) as (_ & _ & H & _).
  rewrite H; [reflexivity | discriminate |].
  intros b Hb. vm_compute in E. injection E as <-. discriminate.
Defined.

(** ** Ticks and cycles *)

Lemma run_ticks_inv sys0 ls sys :
  engine sys0 = ENewTicker -> tickerC sys0 = None ->
  exec sys0 ls = Some sys ->
  match tickerC sys with
  | None => engine sys = ENewTicker /\ count is_tick ls = 0%nat /\ count is_recv_tick ls = 0%nat
  | Some b => (length b <= 1)%nat /\ (count is_recv_tick ls + length b <= count is_tick ls)%nat
  end /\
  (count is_work_begin ls + tick_taken (engine sys))%nat =
    (count is_recv_tick ls + first_begun (engine sys))%nat /\
  count is_work_begin ls =
    (count is_work_end ls + Nat.b2n (in_flight (engine sys)))%nat.
Proof.
  intros He Ht. revert ls sys. apply exec_ind.
  - rewrite He, Ht. done.
  - intros ls s l s' _ (IH1 & IH2 & IH3) Hs. rewrite !count_snoc.
    unfold step in Hs.
    destruct (engine s) eqn:Ee, (tickerC s) as [b|] eqn:Et; step_cases Hs;
      cbn [tickerC engine with_engine with_watcher with_ticker with_bufQuit with_bufDone
           crash is_tick is_recv_tick is_work_begin is_work_end Nat.b2n in_flight
           tick_taken first_begun length] in *;
      rewrite ?Ee, ?Et in *;
      cbn [tick_taken first_begun in_flight Nat.b2n length] in *;
      try match goal with first : bool |- _ => destruct first end;
      cbn [after_work tick_taken first_begun in_flight Nat.b2n] in *;
      try (destruct IH1 as (? & ? & ?); simplify_eq);
      repeat split; try done; try lia.
Qed.

(** X10. Work cycles never overlap and are driven by the ticker alone:
    in every run the cycles begun are those ended plus the one in flight,
    each cycle but the first has taken one tick, so that there are never
    more cycles than ticks plus one; and ticks do not queue up: at most
    one is pending, those that fire while one is pending are dropped. *)
Theorem run_cycles_and_ticks (s0 : Kettle) (i : StartInput) (e : StartEnv)
    (sys0 : Sys) (ls : list Label) (sys : Sys) :
  launch (Start s0 (Some i) e) = Some sys0 ->
  exec sys0 ls = Some sys ->
  count is_work_begin ls = (count is_work_end ls + Nat.b2n (in_flight (engine sys)))%nat /\
  (count is_work_begin ls + tick_taken (engine sys))%nat =
    (count is_recv_tick ls + first_begun (engine sys))%nat /\
  (count is_work_begin ls <= 1 + count is_tick ls)%nat /\
  (forall b, tickerC sys = Some b -> (length b <= 1)%nat).
Proof.
  intros HL HE. rewrite launch_Start in HL. injection HL as <-.
  pose proof HE as HI. apply run_ticks_inv in HI as (H1 & H2 & H3); [|reflexivity..].
  split; [exact H3|]. split; [exact H2|]. split.
  - assert (first_begun (engine sys) <= 1)%nat
      by (unfold first_begun; destruct (engine sys) as [|[]| | | | | |]; lia).
    destruct (tickerC sys); [|destruct H1 as (_ & ? & ?)]; lia.
  - intros b Hb. rewrite Hb in H1. lia.
Qed.

Lemma run_cycles_and_ticks_witness :
  (count is_work_begin run_sample <= 1 + count is_tick run_sample)%nat /\
  count is_work_begin run_sample = 2%nat.
Proof.
  destruct (exec sys_sample run_sample) as [sys|] eqn:E; [|vm_compute in E; discriminate].
  destruct (run_cycles_and_ticks kettle_sample input_sample start_env
              sys_sample run_sample sys eq_refl E) as (_ & _ & H & _).
  split; [exact H | reflexivity].
Defined.

(** ** Panics *)

Lemma engine_safe_step s l s' :
  engine_safe s -> step s l = Some s' -> engine_safe s' /\ is_panic l = false.
Proof.
  intros (Hc & Hl & Hi & Ht) Hs. unfold engine_safe.
  assert (Hp : panics s = false).
  { unfold panics. destruct (engine s); try done.
    - apply bool_decide_eq_false. lia.
    - destruct (setMaster_ok (kettle s) None Hl) as (? & -> & _). done.
    - destruct (startInput (kettle s)) as [i|] eqn:E; [|done].
      destruct (work_callback_ok (kettle s) i None E) as (? & -> & _). done. }
  step_cases Hs; kettle_inv; cbn; try done.
Qed.

Lemma New_lock opts env k : New opts env = (Some k, None) -> lock k <> None.
Proof.
  intros HN.
  destruct (apply_opts_fields opts Kettle_literal) as (_ & _ & Hl & _).
  cbn in Hl.
  destruct (last_lock opts None) as [dl|] eqn:E.
  - rewrite (New_custom _ _ _ E) in HN. injection HN as <-. by rewrite Hl.
  - rewrite (New_default _ _ E) in HN.
    destruct (NewRedisPool env) as [p [err|]]; [done|]. by injection HN as <-.
Qed.

(** X11. A kettle that [New] returned, with a tick interval that is
    positive as a [time.Duration], never panics once started: in no run
    does the engine hit [time.NewTicker]'s panic or a nil dereference. *)
Theorem run_never_panics (opts : list KettleOption) (env : gmap string string) (k : Kettle)
    (i : StartInput) (e : StartEnv) (sys0 : Sys) (ls : list Label) (sys : Sys) :
  New opts env = (Some k, None) ->
  0 < tick_duration k ->
  launch (Start k (Some i) e) = Some sys0 ->
  exec sys0 ls = Some sys ->
  crashed sys = false /\ panics sys = false /\ count is_panic ls = 0%nat /\
  step sys LPanic = None.
Proof.
  intros HN Ht HL HE.
  pose proof (New_lock _ _ _ HN) as Hl.
  rewrite launch_Start in HL. injection HL as <-.
  assert (H : engine_safe sys /\ count is_panic ls = 0%nat).
  { revert ls sys HE. apply exec_ind.
    - split; [|done]. unfold engine_safe. cbn. done.
    - intros ls s l s' _ [IH1 IH2] Hs.
      destruct (engine_safe_step _ _ _ IH1 Hs) as [H1 H2].
      split; [done|]. rewrite count_snoc, IH2, H2. done. }
  destruct H as [(Hc & Hl' & Hi & Ht') Hn].
  assert (Hp : panics sys = false).
  { unfold panics. destruct (engine sys); try done.
    - apply bool_decide_eq_false. lia.
    - destruct (setMaster_ok (kettle sys) None Hl') as (? & -> & _). done.
    - destruct (startInput (kettle sys)) as [j|] eqn:E; [|done].
      destruct (work_callback_ok (kettle sys) j None E) as (? & -> & _). done. }
  repeat split; try done. unfold step. by rewrite Hc, Hp.
Qed.

Lemma run_never_panics_witness :
  exists sys, exec sys_sample run_sample = Some sys /\ crashed sys = false.
Proof.
  destruct (exec sys_sample run_sample) as [sys|] eqn:E; [|vm_compute in E; discriminate].
  exists sys. split; [reflexivity|].
  refine (proj1 (run_never_panics opts_sample env_host kettle_sample input_sample start_env
                   sys_sample run_sample sys eq_refl _ eq_refl E)).
  vm_compute. reflexivity.
Defined.

Lemma run_stuck_at_ticker sys0 ls sys :
  engine sys0 = ENewTicker -> tick_duration (kettle sys0) <= 0 ->
  exec sys0 ls = Some sys ->
  engine sys = ENewTicker /\ kettle sys = kettle sys0 /\
  Forall (fun l => is_work l = false) ls /\ count is_new_ticker ls = 0%nat.
Proof.
  intros He Ht. revert ls sys. apply exec_ind.
  - done.
  - intros ls s l s' _ (IH1 & IH2 & IH3 & IH4) Hs. rewrite count_snoc, IH4.
    unfold step in Hs. rewrite IH1, IH2 in Hs.
    step_cases Hs; cbn; rewrite ?IH1, ?IH2; (split; [done|]); (split; [done|]);
      (split; [apply Forall_app; split; [done | by repeat constructor] | done]).
Qed.

(** X12. With a tick interval that is not positive as a
    [time.Duration] (a tick time of zero or less, or one so large that the
    product overflows to such a value), [doMaster] panics in
    [time.NewTicker] before the first invoke of [work]: no run of the
    started kettle creates the ticker, attempts the lock or sends on
    [Done], and the panic is enabled from the start. *)
Theorem nonpositive_tick_panics (s0 : Kettle) (i : StartInput) (e : StartEnv)
    (sys0 : Sys) (ls : list Label) (sys : Sys) :
  tick_duration s0 <= 0 ->
  launch (Start s0 (Some i) e) = Some sys0 ->
  exec sys0 ls = Some sys ->
  count is_new_ticker ls = 0%nat /\
  Forall (fun l => is_work l = false) ls /\
  (LSendDone ∉ ls) /\
  isMaster (kettle sys) = isMaster s0 /\
  step sys0 LPanic = Some (crash sys0).
Proof.
  intros Ht HL HE.
  destruct (launch_handshake_inv _ _ _ _ HL)
    as (HI0 & Hd0 & He0 & _ & _ & Hcr & _ & _ & Htt).
  assert (Ht0 : tick_duration (kettle sys0) <= 0).
  { unfold tick_duration in *. by rewrite Htt. }
  destruct (run_stuck_at_ticker _ _ _ He0 Ht0 HE) as (H1 & H2 & H3 & H4).
  split; [exact H4|]. split; [exact H3|]. split; [|split].
  - intros Hin. apply list_elem_of_split in Hin as (l1 & l2 & ->).
    destruct (exec_split _ _ _ _ _ HE) as (s1 & s2 & E1 & Hs & _).
    destruct (run_handshake _ _ _ HI0 Hd0 E1) as [(_ & _ & HI1) _].
    destruct (run_stuck_at_ticker _ _ _ He0 Ht0 E1) as (He1 & _).
    step_cases Hs. rewrite He1 in HI1. done.
  - rewrite H2. rewrite launch_Start in HL. by injection HL as <-.
  - unfold step, panics. rewrite Hcr, He0, bool_decide_true by done. done.
Qed.

Lemma nonpositive_tick_panics_witness :
  step sys_custom LPanic = Some (crash sys_custom) /\
  count is_new_ticker [LRecvQuit; LSendMasterQuit] = 0%nat.
Proof.
  destruct (exec sys_custom [LRecvQuit; LSendMasterQuit]) as [sys|] eqn:E;
    [|vm_compute in E; discriminate].
  assert (H : tick_duration kettle_custom <= 0) by (vm_compute; discriminate).
  destruct (nonpositive_tick_panics kettle_custom input_sample start_env
              sys_custom [LRecvQuit; LSendMasterQuit] sys H eq_refl E)
    as (Hn & _ & _ & _ & Hp).
  split; [exact Hp | exact Hn].
Defined.

(** ** [Start] *)




(** ** The callback and the flag *)

(** X14. The callback is called only while the master flag is set, at
    the end of a cycle whose acquisition attempt succeeded: the end of a
    work cycle records one call of [in.Master] on [in.MasterCtx] when the
    flag is 1 and [Master] is not nil, and nothing otherwise; the flag is
    1 there exactly when the last attempt returned nil; and the call
    leaves the kettle as it was. *)
Theorem callback_only_while_master (s0 : Kettle) (i : StartInput) (e : StartEnv)
    (sys0 : Sys) (ls : list Label) (sys : Sys) (l1 l2 : list Label) (cb : option goerror) :
  launch (Start s0 (Some i) e) = Some sys0 ->
  exec sys0 ls = Some sys ->
  ls = l1 ++ LWorkEnd cb :: l2 ->
  exists s1 s2,
    exec sys0 l1 = Some s1 /\ step s1 (LWorkEnd cb) = Some s2 /\
    kettle s2 = kettle s1 /\
    (isMaster (kettle s1) = true <-> last_lock_ret l1 None = Some None) /\
    (forall f, Master i = Some f -> isMaster (kettle s1) = true ->
       trace s2 = trace s1 ++ [EvMaster f (MasterCtx i) cb]) /\
    (isMaster (kettle s1) = false \/ Master i = None -> trace s2 = trace s1).
Proof.
  intros HL HE ->. rewrite launch_Start in HL. injection HL as <-.
  destruct (exec_split _ _ _ _ _ HE) as (s1 & s2 & H1 & Hs & _).
  exists s1, s2. split; [exact H1|]. split; [exact Hs|].
  destruct (run_kettle _ _ _ H1) as [Hk _].
  assert (Hsi : startInput (kettle s1) = Some i) by (rewrite Hk; done).
  pose proof H1 as Hf. apply run_master_flag in Hf as [Hf Hc]; [|reflexivity].
  unfold step in Hs. destruct (crashed s1); [done|].
  destruct (engine s1) eqn:Ee; try done.
  specialize (Hc first eq_refl).
  unfold work_callback, ret in Hs. rewrite Hsi in Hs.
  assert (Hiff : isMaster (kettle s1) = true <-> last_lock_ret l1 None = Some None).
  { unfold isMaster. rewrite Hf.
    destruct (last_lock_ret l1 None) as [[r|]|]; [| |done]; cbn; split; done. }
  destruct (isMaster (kettle s1)) eqn:Em.
  - destruct (Master i) as [f|] eqn:Ef; injection Hs as <-; cbn.
    + split; [done|]. split; [exact Hiff|]. split; [by intros f' [= <-] _|].
      by intros [?|?].
    + split; [done|]. split; [exact Hiff|]. split; [done|]. by rewrite app_nil_r.
  - injection Hs as <-. cbn. split; [done|]. split; [exact Hiff|]. split; [done|].
    by rewrite app_nil_r.
Qed.

Lemma callback_only_while_master_witness :
  exists s1 s2,
    exec sys_sample [LNewTicker; LWorkBegin; LLockReturn None] = Some s1 /\
    step s1 (LWorkEnd lock_busy) = Some s2 /\
    trace s2 = trace s1 ++ [EvMaster (FuncRef 0) (IString "ctx") lock_busy].
Proof.
  destruct (exec sys_sample ([LNewTicker; LWorkBegin; LLockReturn None] ++ LWorkEnd lock_busy :: []))
    as [sys|] eqn:E; [|vm_compute in E; discriminate].
  destruct (callback_only_while_master kettle_sample input_sample start_env sys_sample
              _ sys [LNewTicker; LWorkBegin; LLockReturn None] [] lock_busy eq_refl E eq_refl)
    as (s1 & s2 & H1 & H2 & _ & Hiff & Hcall & _).
  exists s1, s2. split; [exact H1|]. split; [exact H2|].
  apply (Hcall (FuncRef 0) eq_refl). apply Hiff. reflexivity.
Defined.
